(** * FB::Deferred / FB::Promise (Deferred.h): a shallow embedding

    The shared [StateData] cells live in a heap addressed by natural
    numbers; a [Deferred] or [Promise] handle is the address of its cell
    (the [std::shared_ptr]), an unbound [Promise] is [None].  Callables
    stored in the cells are defunctionalised: one constructor per lambda
    of Deferred.h, plus observers standing for the consumer's own
    callbacks, which record their argument in a trace.  C++ exceptions
    are an explicit outcome of every operation. *)

From stdpp Require Import base numbers list strings pretty.

(** ** Data model *)

(** [enum class PromiseState {PENDING, RESOLVED, REJECTED}] *)
Inductive PromiseState : Type := PENDING | RESOLVED | REJECTED.

Definition PromiseState_eqb (a b : PromiseState) : bool :=
  match a, b with
  | PENDING, PENDING | RESOLVED, RESOLVED | REJECTED, REJECTED => true
  | _, _ => false
  end.

(** The payload type [T].  Deferred.cpp instantiates the templates at
    [FB::variant]; a default-constructed variant is empty.  One sum type
    stands for every instantiation used below. *)
Inductive val : Type :=
  | VEmpty
  | VInt (n : Z)
  | VStr (s : string).

(** Objects that can be thrown.  [runtime_error] is [std::runtime_error]
    (derived from [std::exception]); [thrown_value] is an object of a
    type that does not derive from it, as in [throw 42;]. *)
Inductive exception : Type :=
  | runtime_error (what : string)
  | thrown_value (v : val).

Definition derives_from_std_exception (e : exception) : bool :=
  match e with
  | runtime_error _ => true
  | thrown_value _ => false
  end.

(** [std::exception_ptr]; [None] is the null pointer. *)
Definition exception_ptr : Type := option exception.

Definition make_exception_ptr (e : exception) : exception_ptr := Some e.

Definition addr : Type := nat.

(** [Promise<T>]: its [m_data], null for a default-constructed promise. *)
Definition Promise : Type := option addr.

(** What a call of a user-supplied handler does: return or throw. *)
Inductive outcome (A : Type) : Type :=
  | returns (a : A)
  | throws (e : exception).
Arguments returns {A} a.
Arguments throws {A} e.

(** The [Promise<Uout>] a [thenPipe] handler hands back. *)
Inductive PromiseExpr : Type :=
  | promise_of_value (v : val)          (* Promise<Uout>(v) *)
  | promise_rejected (ep : exception_ptr) (* Promise<Uout>::rejected(ep) *)
  | promise_held (p : Promise).         (* a promise the handler holds; may be unbound *)

(** [Deferred<T>::Callback = std::function<void(T)>]. *)
Inductive Callback : Type :=
  | Observer (id : nat)
      (* a consumer's callback: records the call *)
  | DfdResolve (dfd : addr)
      (* [dfd](T v) { dfd.resolve(v); } *)
  | PipeDone (dfd : addr) (cbSuccess : val -> outcome PromiseExpr)
      (* onDone of thenPipe *)
  | ThenDone (dfd : addr) (cbSuccess : val -> outcome val).
      (* onDone of then / of the converting constructor *)

(** [Deferred<T>::ErrCallback = std::function<void(std::exception_ptr)>]. *)
Inductive ErrCallback : Type :=
  | ErrObserver (id : nat)
  | DfdReject (dfd : addr)
      (* [dfd](std::exception_ptr e) { dfd.reject(e); } *)
  | PipeFail (dfd : addr) (cbFail : exception_ptr -> outcome PromiseExpr)
      (* onFail of the two-handler thenPipe *)
  | ThenFail (dfd : addr) (cbFail : exception_ptr -> outcome val).

(** [struct StateData] *)
Record StateData : Type := mkStateData {
  value : val;
  state : PromiseState;
  err_ptr : exception_ptr;
  resolveList : list Callback;
  rejectList : list ErrCallback
}.

(** [StateData(T v)], [StateData(std::exception_ptr ep)], [StateData()] *)
Definition StateData_of_value (v : val) : StateData :=
  mkStateData v RESOLVED None [] [].
Definition StateData_of_error (ep : exception_ptr) : StateData :=
  mkStateData VEmpty REJECTED ep [] [].
Definition StateData_pending : StateData :=
  mkStateData VEmpty PENDING None [] [].

Definition set_value (v : val) (sd : StateData) : StateData :=
  mkStateData v (state sd) (err_ptr sd) (resolveList sd) (rejectList sd).
Definition set_state (s : PromiseState) (sd : StateData) : StateData :=
  mkStateData (value sd) s (err_ptr sd) (resolveList sd) (rejectList sd).
Definition set_err_ptr (ep : exception_ptr) (sd : StateData) : StateData :=
  mkStateData (value sd) (state sd) ep (resolveList sd) (rejectList sd).
Definition set_resolveList (l : list Callback) (sd : StateData) : StateData :=
  mkStateData (value sd) (state sd) (err_ptr sd) l (rejectList sd).
Definition set_rejectList (l : list ErrCallback) (sd : StateData) : StateData :=
  mkStateData (value sd) (state sd) (err_ptr sd) (resolveList sd) l.

(** What an observer saw. *)
Inductive event : Type :=
  | Called (id : nat) (v : val)
  | CalledErr (id : nat) (ep : exception_ptr).

Record World : Type := mkWorld {
  heap : list StateData;
  trace : list event
}.

Definition empty_world : World := mkWorld [] [].

(** ** Effects *)

Inductive stop : Type :=
  | OutOfFuel    (* the interpreter's fuel ran out *)
  | Undefined    (* undefined behaviour: dangling handle, container changed under iteration *)
  | Terminate    (* std::terminate: an exception left a destructor *)
  | OutsideModel. (* a handle captured by a closure is released: see [StateData_destroy] *)

Inductive Result (A : Type) : Type :=
  | Ret (a : A) (w : World)          (* normal return *)
  | Raise (e : exception) (w : World) (* an exception propagates *)
  | Stop (s : stop).
Arguments Ret {A} a w.
Arguments Raise {A} e w.
Arguments Stop {A} s.

Definition M (A : Type) : Type := World -> Result A.

Definition ret {A} (a : A) : M A := fun w => Ret a w.

Definition bind {A B} (m : M A) (k : A -> M B) : M B :=
  fun w =>
    match m w with
    | Ret a w' => k a w'
    | Raise e w' => Raise e w'
    | Stop s => Stop s
    end.

Definition throw {A} (e : exception) : M A := fun w => Raise e w.

(** [try { body } catch (...) { handler }]; the handler decides what it
    catches and rethrows the rest. *)
Definition try_catch {A} (body : M A) (handler : exception -> M A) : M A :=
  fun w =>
    match body w with
    | Raise e w' => handler e w'
    | r => r
    end.

Declare Scope dfd_scope.
Delimit Scope dfd_scope with dfd.
Notation "x <- m ;; k" := (bind m (fun x => k))
  (at level 100, m at next level, right associativity) : dfd_scope.
Notation "m ;; k" := (bind m (fun _ => k))
  (at level 100, right associativity) : dfd_scope.
Open Scope dfd_scope.

(** [*m_data] *)
Definition deref (m_data : addr) : M StateData :=
  fun w =>
    match heap w !! m_data with
    | Some sd => Ret sd w
    | None => Stop Undefined
    end.

(** A field assignment through [m_data->]. *)
Definition modify (m_data : addr) (f : StateData -> StateData) : M unit :=
  sd <- deref m_data ;;
  fun w => Ret tt (mkWorld (<[m_data := f sd]> (heap w)) (trace w)).

(** [std::make_shared<StateData>(...)] *)
Definition make_shared (sd : StateData) : M addr :=
  fun w => Ret (length (heap w)) (mkWorld (heap w ++ [sd]) (trace w)).

Definition emit (ev : event) : M unit :=
  fun w => Ret tt (mkWorld (heap w) (trace w ++ [ev])).

(** [for (auto fn : list) body(fn);] over a member vector.  The range-for
    reads [begin()] and [end()] once; a body that changes the vector
    invalidates them, which is undefined behaviour.  [intact] is checked
    after every call of the body. *)
Fixpoint for_each {A} (body : A -> M unit) (intact : World -> bool)
    (l : list A) : M unit :=
  match l with
  | [] => ret tt
  | fn :: rest =>
      body fn ;;
      fun w => if intact w then for_each body intact rest w else Stop Undefined
  end.

Definition resolveList_size_is (this : addr) (n : nat) (w : World) : bool :=
  match heap w !! this with
  | Some sd => length (resolveList sd) =? n
  | None => false
  end.

Definition rejectList_size_is (this : addr) (n : nat) (w : World) : bool :=
  match heap w !! this with
  | Some sd => length (rejectList sd) =? n
  | None => false
  end.

(** ** The operations of Deferred.h *)

(** The calls that can occur while callbacks are dispatched. *)
Inductive call : Type :=
  | CallResolve (this : addr) (v : val)            (* StateData::resolve *)
  | CallReject (this : addr) (ep : exception_ptr)  (* StateData::reject *)
  | CallDone (this : Promise) (cbSuccess : option Callback)
             (cbFail : option ErrCallback)         (* Promise::done *)
  | CallFail (this : Promise) (cbFail : option ErrCallback) (* Promise::fail *)
  | Invoke (fn : Callback) (v : val)               (* fn(v) *)
  | InvokeErr (fn : ErrCallback) (ep : exception_ptr). (* fn(ep) *)

Definition Promise_invalid : exception := runtime_error "Promise invalid".

Section Bodies.
(** The callee: the same functions with one unit of fuel less. *)
Variable rec : call -> M unit.

(** [void StateData::resolve(T v)] *)
Definition StateData_resolve (this : addr) (v : val) : M unit :=
  modify this (set_value v) ;;
  modify this (set_state RESOLVED) ;;
  modify this (set_rejectList []) ;;
  sd <- deref this ;;
  for_each (fun fn => rec (Invoke fn v))
           (resolveList_size_is this (length (resolveList sd)))
           (resolveList sd) ;;
  modify this (set_resolveList []).

(** [void StateData::reject(std::exception_ptr ep)] *)
Definition StateData_reject (this : addr) (ep : exception_ptr) : M unit :=
  modify this (set_err_ptr ep) ;;
  modify this (set_state REJECTED) ;;
  modify this (set_resolveList []) ;;
  sd <- deref this ;;
  for_each (fun fn => rec (InvokeErr fn ep))
           (rejectList_size_is this (length (rejectList sd)))
           (rejectList sd) ;;
  modify this (set_rejectList []).

(** [const Promise<T>& Promise::fail(ErrCallback cbFail) const] *)
Definition Promise_fail_body (this : Promise) (cbFail : option ErrCallback)
    : M unit :=
  match this with
  | None => throw Promise_invalid
  | Some m_data =>
      match cbFail with
      | None => ret tt
      | Some fn =>
          sd <- deref m_data ;;
          match state sd with
          | PENDING =>
              modify m_data (fun sd => set_rejectList (rejectList sd ++ [fn]) sd)
          | REJECTED => rec (InvokeErr fn (err_ptr sd))
          | RESOLVED => ret tt
          end
      end
  end.

(** [const Promise<T>& Promise::done(Callback cbSuccess, ErrCallback cbFail = nullptr) const] *)
Definition Promise_done_body (this : Promise) (cbSuccess : option Callback)
    (cbFail : option ErrCallback) : M unit :=
  match this with
  | None => throw Promise_invalid
  | Some m_data =>
      match cbFail with
      | Some fn => rec (CallFail this (Some fn))
      | None => ret tt
      end ;;
      match cbSuccess with
      | None => ret tt
      | Some fn =>
          sd <- deref m_data ;;
          match state sd with
          | PENDING =>
              modify m_data (fun sd => set_resolveList (resolveList sd ++ [fn]) sd)
          | RESOLVED => rec (Invoke fn (value sd))
          | REJECTED => ret tt
          end
      end
  end.

(** [static Promise<T> Promise::rejected(std::exception_ptr ep)]:
    [Deferred<T> dfd; dfd.reject(ep); return dfd.promise();] *)
Definition Promise_rejected_body (ep : exception_ptr) : M Promise :=
  dfd <- make_shared StateData_pending ;;
  rec (CallReject dfd ep) ;;
  ret (Some dfd).

(** Evaluating the promise a handler returns. *)
Definition make_promise (pe : PromiseExpr) : M Promise :=
  match pe with
  | promise_of_value v =>
      (* Promise(T v) { Deferred<T> dfd{v}; m_data = dfd.promise().m_data; } *)
      dfd <- make_shared (StateData_of_value v) ;; ret (Some dfd)
  | promise_rejected ep => Promise_rejected_body ep
  | promise_held p => ret p
  end.

(** The [try] block shared by onDone and onFail of [thenPipe]:
    [Promise<Uout> res = cb(arg); res.done(onDone2, onFail2);]
    with [catch (std::exception e) { dfd.reject(std::current_exception()); }].
    An exception of another type is not caught. *)
Definition pipe_handler (dfd : addr) (r : outcome PromiseExpr) : M unit :=
  try_catch
    (match r with
     | throws e => throw e
     | returns pe =>
         res <- make_promise pe ;;
         rec (CallDone res (Some (DfdResolve dfd)) (Some (DfdReject dfd)))
     end)
    (fun e =>
       if derives_from_std_exception e
       then rec (CallReject dfd (Some e))
       else throw e).

(** Modelled from the spec: the bodies of the callbacks that [then]
    registers (its helper [_doPromiseThen] is called in Deferred.h but
    defined nowhere in the sources at hand).  The handler's return value
    settles the new promise as resolved; if the handler throws, the new
    promise is rejected with that error. *)
Definition then_handler (dfd : addr) (r : outcome val) : M unit :=
  match r with
  | returns u => rec (CallResolve dfd u)
  | throws e => rec (CallReject dfd (Some e))
  end.

(** Calling a stored [Callback]. *)
Definition invoke (fn : Callback) (v : val) : M unit :=
  match fn with
  | Observer id => emit (Called id v)
  | DfdResolve dfd => rec (CallResolve dfd v)
  | PipeDone dfd cbSuccess => pipe_handler dfd (cbSuccess v)
  | ThenDone dfd cbSuccess => then_handler dfd (cbSuccess v)
  end.

(** Calling a stored [ErrCallback]. *)
Definition invoke_err (fn : ErrCallback) (ep : exception_ptr) : M unit :=
  match fn with
  | ErrObserver id => emit (CalledErr id ep)
  | DfdReject dfd => rec (CallReject dfd ep)
  | PipeFail dfd cbFail => pipe_handler dfd (cbFail ep)
  | ThenFail dfd cbFail => then_handler dfd (cbFail ep)
  end.

Definition step (c : call) : M unit :=
  match c with
  | CallResolve this v => StateData_resolve this v
  | CallReject this ep => StateData_reject this ep
  | CallDone this cbSuccess cbFail => Promise_done_body this cbSuccess cbFail
  | CallFail this cbFail => Promise_fail_body this cbFail
  | Invoke fn v => invoke fn v
  | InvokeErr fn ep => invoke_err fn ep
  end.
End Bodies.

(** Every call costs one unit of fuel. *)
Fixpoint exec (fuel : nat) (c : call) : M unit :=
  match fuel with
  | O => fun _ => Stop OutOfFuel
  | S n => step (exec n) c
  end.

(** ** The public interface *)

(** [Deferred()], [Deferred(T v)], [Deferred(std::exception_ptr ep)] *)
Definition Deferred_new : M addr := make_shared StateData_pending.
Definition Deferred_of_value (v : val) : M addr :=
  make_shared (StateData_of_value v).
Definition Deferred_of_error (ep : exception_ptr) : M addr :=
  make_shared (StateData_of_error ep).

(** [Promise<T> Deferred::promise() const] *)
Definition Deferred_promise (dfd : addr) : Promise := Some dfd.

(** [void Deferred::resolve(T v) const { m_data->resolve(v); }] *)
Definition Deferred_resolve (fuel : nat) (dfd : addr) (v : val) : M unit :=
  exec fuel (CallResolve dfd v).

(** [void Deferred::reject(std::exception_ptr ep) const { m_data->reject(ep); }] *)
Definition Deferred_reject (fuel : nat) (dfd : addr) (ep : exception_ptr)
    : M unit :=
  exec fuel (CallReject dfd ep).

(** [void Deferred::resolve(Promise<T> v) const]:
    [v.done(onDone, onFail)] with the two forwarding lambdas. *)
Definition Deferred_resolve_promise (fuel : nat) (dfd : addr) (v : Promise)
    : M unit :=
  exec fuel (CallDone v (Some (DfdResolve dfd)) (Some (DfdReject dfd))).



(** [bool Promise::isValid() const] *)
Definition Promise_isValid (this : Promise) : bool :=
  match this with Some _ => true | None => false end.

(** [Promise::done]; the result is [*this]. *)
Definition Promise_done (fuel : nat) (this : Promise)
    (cbSuccess : option Callback) (cbFail : option ErrCallback) : M Promise :=
  exec fuel (CallDone this cbSuccess cbFail) ;; ret this.

(** [Promise::fail]; the result is [*this]. *)
Definition Promise_fail (fuel : nat) (this : Promise)
    (cbFail : option ErrCallback) : M Promise :=
  exec fuel (CallFail this cbFail) ;; ret this.

Definition Promise_rejected (fuel : nat) (ep : exception_ptr) : M Promise :=
  Promise_rejected_body (exec fuel) ep.

(** [Promise<Uout> Promise::thenPipe(Success cbSuccess) const] *)
Definition Promise_thenPipe (fuel : nat) (this : Promise)
    (cbSuccess : val -> outcome PromiseExpr) : M Promise :=
  match this with
  | None => Promise_rejected fuel (make_exception_ptr Promise_invalid)
  | Some _ =>
      dfd <- Deferred_new ;;
      Promise_done fuel this (Some (PipeDone dfd cbSuccess))
                   (Some (DfdReject dfd)) ;;
      ret (Deferred_promise dfd)
  end.

(** [Promise<Uout> Promise::thenPipe(Success cbSuccess, Fail cbFail) const] *)
Definition Promise_thenPipe2 (fuel : nat) (this : Promise)
    (cbSuccess : val -> outcome PromiseExpr)
    (cbFail : exception_ptr -> outcome PromiseExpr) : M Promise :=
  match this with
  | None => Promise_rejected fuel (make_exception_ptr Promise_invalid)
  | Some _ =>
      dfd <- Deferred_new ;;
      Promise_done fuel this (Some (PipeDone dfd cbSuccess))
                   (Some (PipeFail dfd cbFail)) ;;
      ret (Deferred_promise dfd)
  end.

(** Modelled from the spec: [_doPromiseThen], which [Promise::then] calls
    and which is not defined in the sources at hand.  It creates a new
    cell; when the input promise settles, the matching handler is invoked
    with the value or error and its return value resolves the new promise
    ([then_handler]); where no handler is supplied for the branch that
    occurs, the original outcome is forwarded unchanged.  The callbacks are
    subscribed with [done], so an unbound input fails as [done] does. *)
Definition doPromiseThen (fuel : nat) (inPromise : Promise)
    (cbSuccess : option (val -> outcome val))
    (cbFail : option (exception_ptr -> outcome val)) : M Promise :=
  dfd <- Deferred_new ;;
  Promise_done fuel inPromise
    (Some (match cbSuccess with
           | Some f => ThenDone dfd f
           | None => DfdResolve dfd
           end))
    (Some (match cbFail with
           | Some f => ThenFail dfd f
           | None => DfdReject dfd
           end)) ;;
  ret (Deferred_promise dfd).

(** [Promise<Uout> Promise::then(cbSuccess, cbFail = nullptr) const] *)
Definition Promise_then (fuel : nat) (this : Promise)
    (cbSuccess : option (val -> outcome val))
    (cbFail : option (exception_ptr -> outcome val)) : M Promise :=
  doPromiseThen fuel this cbSuccess cbFail.

(** Modelled from the spec: the constructor [Promise<U>(const Promise<T>&)]
    for [U] other than [T], which [convert_cast] calls and Deferred.h does
    not declare, together with the conversion [FB::variant::convert_cast]
    of variant.h, taken as the parameter [conv].  The new promise resolves
    to the converted value once the input resolves; a failing conversion
    rejects it.  That is [then] with the conversion as success handler. *)
Definition Promise_converting (fuel : nat) (rh : Promise)
    (conv : val -> outcome val) : M Promise :=
  doPromiseThen fuel rh (Some conv) None.

(** [Promise<U> Promise::convert_cast() { return Promise<U>( *this ); }].
    [conv = None] is the instance [U = T], where [Promise<U>( *this )] is
    the copy constructor. *)
Definition Promise_convert_cast (fuel : nat) (this : Promise)
    (conv : option (val -> outcome val)) : M Promise :=
  match conv with
  | None => ret this
  | Some f => Promise_converting fuel this f
  end.

(** ** Ownership of a cell

    [m_data] is a [std::shared_ptr<StateData>]: the cell is destroyed when
    its last owner goes away, whichever kind of handle that is.  The
    owners of one cell are counted by kind; handles captured in closures
    count as what they are. *)
Record Owners : Type := mkOwners {
  deferreds : nat;
  promises : nat
}.

Definition use_count (o : Owners) : nat := deferreds o + promises o.

(** An exception that leaves a destructor ends the program. *)
Definition noexcept {A} (m : M A) : M A :=
  fun w =>
    match m w with
    | Raise _ _ => Stop Terminate
    | r => r
    end.

Definition Deferred_destroyed_1 : exception :=
  runtime_error "Deferred object destroyed: 1".

(** Does a stored callable own a handle?  The lambdas of Deferred.h
    capture a [Deferred] by value; a consumer's observer captures none. *)
Definition captures_handle (fn : Callback) : bool :=
  match fn with
  | Observer _ => false
  | DfdResolve _ | PipeDone _ _ | ThenDone _ _ => true
  end.

Definition err_captures_handle (fn : ErrCallback) : bool :=
  match fn with
  | ErrObserver _ => false
  | DfdReject _ | PipeFail _ _ | ThenFail _ _ => true
  end.

(** [StateData::~StateData()], and the destruction of the members after
    its body.  Destroying the cell destroys every closure stored in its
    two vectors, in the [clear()] calls of the [reject] that the body
    makes or with the members afterwards.  A closure that captures a
    [Deferred] releases it then, which can destroy the cell of that
    [Deferred] in turn and call its failure callbacks.  The owners of
    other cells are not counted here, so a cell that stores such a closure
    is outside what this function describes: it stops with
    [OutsideModel].  For a cell whose closures capture nothing, destroying
    them has no effect and the body is all there is. *)
Definition StateData_destroy (fuel : nat) (this : addr) : M unit :=
  sd <- deref this ;;
  if existsb captures_handle (resolveList sd)
     || existsb err_captures_handle (rejectList sd)
  then fun _ => Stop OutsideModel
  else
    if PromiseState_eqb (state sd) PENDING
       && negb (length (rejectList sd) =? 0)
    then noexcept (exec fuel
                     (CallReject this (make_exception_ptr Deferred_destroyed_1)))
    else ret tt.

(** Releasing one [shared_ptr]; [o] counts the owners that remain. *)
Definition shared_ptr_release (fuel : nat) (this : addr) (o : Owners)
    : M unit :=
  if use_count o =? 0 then StateData_destroy fuel this else ret tt.

(** [Deferred::~Deferred() {}]: only the member [m_data] is released. *)
Definition Deferred_destroy (fuel : nat) (this : addr) (o : Owners)
    : M Owners :=
  match deferreds o with
  | O => fun _ => Stop Undefined
  | S n =>
      let o' := mkOwners n (promises o) in
      shared_ptr_release fuel this o' ;; ret o'
  end.

(** The implicit destructor of [Promise]. *)
Definition Promise_destroy (fuel : nat) (this : addr) (o : Owners)
    : M Owners :=
  match promises o with
  | O => fun _ => Stop Undefined
  | S n =>
      let o' := mkOwners (deferreds o) n in
      shared_ptr_release fuel this o' ;; ret o'
  end.

(** Destroying every controller handle of the cell. *)
Fixpoint destroy_deferreds (fuel : nat) (this : addr) (n : nat) (o : Owners)
    : M Owners :=
  match n with
  | O => ret o
  | S k =>
      o' <- Deferred_destroy fuel this o ;;
      destroy_deferreds fuel this k o'
  end.

Definition destroy_all_deferreds (fuel : nat) (this : addr) (o : Owners)
    : M Owners :=
  destroy_deferreds fuel this (deferreds o) o.

(** ** Sequences of operations on the cells *)

Inductive op : Type :=
  | OpResolve (dfd : addr) (v : val)
  | OpReject (dfd : addr) (ep : exception_ptr)
  | OpDone (p : Promise) (cbSuccess : option Callback)
           (cbFail : option ErrCallback)
  | OpFail (p : Promise) (cbFail : option ErrCallback).

Definition call_of_op (o : op) : call :=
  match o with
  | OpResolve dfd v => CallResolve dfd v
  | OpReject dfd ep => CallReject dfd ep
  | OpDone p cbSuccess cbFail => CallDone p cbSuccess cbFail
  | OpFail p cbFail => CallFail p cbFail
  end.

(** The client runs the operations in turn; an exception that reaches it
    is caught there and the next operation runs. *)
Fixpoint run_ops (fuel : nat) (ops : list op) : M unit :=
  match ops with
  | [] => ret tt
  | o :: rest =>
      try_catch (exec fuel (call_of_op o)) (fun _ => ret tt) ;;
      run_ops fuel rest
  end.

(** Reading a cell. *)
Definition cell (w : World) (a : addr) : option StateData := heap w !! a.

Definition state_of (w : World) (a : addr) : option PromiseState :=
  state <$> cell w a.
Definition value_of (w : World) (a : addr) : option val :=
  value <$> cell w a.

(** ** Vocabulary of the statements *)

(** The world after the cell at [a] has been overwritten. *)
Definition upd (w : World) (a : addr) (sd : StateData) : World :=
  mkWorld (<[a := sd]> (heap w)) (trace w).

(** The world after [std::make_shared<StateData>(sd)]. *)
Definition alloc (w : World) (sd : StateData) : World :=
  mkWorld (heap w ++ [sd]) (trace w).

(** A handler written for [Promise<int>]. *)
Definition on_int {A} (f : Z -> outcome A) (v : val) : outcome A :=
  match v with
  | VInt n => f n
  | _ => throws (runtime_error "not an int")
  end.

(** [keeps P m]: whenever [m] hands control back, by returning or by
    throwing, [P] still holds. *)
Definition keeps (P : World -> Prop) {A} (m : M A) : Prop :=
  forall w, P w ->
    match m w with
    | Ret _ w' => P w'
    | Raise _ w' => P w'
    | Stop _ => True
    end.



(** A property [Q] of the cell at [a]. *)
Definition cell_has (a : addr) (Q : StateData -> Prop) (w : World) : Prop :=
  exists sd, heap w !! a = Some sd /\ Q sd.

(** Settled, with nothing left in either callback list. *)
Definition drained (sd : StateData) : Prop :=
  state sd <> PENDING /\ resolveList sd = [] /\ rejectList sd = [].

(** Settled, with one of the two lists empty. *)
Definition reject_drained (sd : StateData) : Prop :=
  state sd <> PENDING /\ rejectList sd = [].
Definition resolve_drained (sd : StateData) : Prop :=
  state sd <> PENDING /\ resolveList sd = [].

(** [p.done(fn)] for every [fn] of a list, in turn. *)
Fixpoint done_each (fuel : nat) (p : Promise) (cbs : list Callback)
    : M unit :=
  match cbs with
  | [] => ret tt
  | fn :: rest => Promise_done fuel p (Some fn) None ;; done_each fuel p rest
  end.

(** [p.fail(fn)] for every [fn] of a list, in turn. *)
Fixpoint fail_each (fuel : nat) (p : Promise) (cbs : list ErrCallback)
    : M unit :=
  match cbs with
  | [] => ret tt
  | fn :: rest => Promise_fail fuel p (Some fn) ;; fail_each fuel p rest
  end.

(** * Properties *)

(** ** Basic facts about the heap and the monad *)

Lemma exec_S (n : nat) (c : call) : exec (S n) c = step (exec n) c.
Proof. reflexivity. Qed.

Lemma bind_Ret {A B} (m : M A) (k : A -> M B) (w w1 : World) (a : A) :
  m w = Ret a w1 -> bind m k w = k a w1.
Proof. intros H. unfold bind. now rewrite H. Qed.

Lemma bind_Ret_inv {A B} (m : M A) (k : A -> M B) (w w' : World) (b : B) :
  bind m k w = Ret b w' ->
  exists a w1, m w = Ret a w1 /\ k a w1 = Ret b w'.
Proof.
  unfold bind. destruct (m w) as [a w1|e w1|s]; intros H; try discriminate.
  now exists a, w1.
Qed.

Lemma deref_Some (w : World) (a : addr) (sd : StateData) :
  heap w !! a = Some sd -> deref a w = Ret sd w.
Proof. intros H. unfold deref. now rewrite H. Qed.

Lemma modify_Some (w : World) (a : addr) (sd : StateData)
    (f : StateData -> StateData) :
  heap w !! a = Some sd -> modify a f w = Ret tt (upd w a (f sd)).
Proof.
  intros H. unfold modify. now rewrite (bind_Ret _ _ _ _ _ (deref_Some _ _ _ H)).
Qed.

Lemma modify_Ret_inv (w w' : World) (a : addr) (f : StateData -> StateData)
    (u : unit) :
  modify a f w = Ret u w' ->
  exists sd, heap w !! a = Some sd /\ w' = upd w a (f sd).
Proof.
  unfold modify, bind, deref.
  destruct (heap w !! a) as [sd|] eqn:E; intros H; try discriminate.
  exists sd. split; [reflexivity|]. now inversion H.
Qed.

Lemma heap_upd_same (w : World) (a : addr) (sd sd' : StateData) :
  heap w !! a = Some sd -> heap (upd w a sd') !! a = Some sd'.
Proof.
  intros H. simpl. apply list_lookup_insert_eq. now apply lookup_lt_Some in H.
Qed.


Lemma upd_upd (w : World) (a : addr) (sd sd' : StateData) :
  upd (upd w a sd) a sd' = upd w a sd'.
Proof. unfold upd. simpl. now rewrite list_insert_insert_eq. Qed.

(** [resolve] on a cell whose resolve list is empty: three stores, no call. *)
Lemma StateData_resolve_drained (rec : call -> M unit) (w : World)
    (a : addr) (sd : StateData) (v : val) :
  heap w !! a = Some sd -> resolveList sd = [] ->
  StateData_resolve rec a v w
  = Ret tt (upd w a (mkStateData v RESOLVED (err_ptr sd) [] [])).
Proof.
  intros H Hl. unfold StateData_resolve.
  rewrite (bind_Ret _ _ _ _ _ (modify_Some _ _ _ _ H)).
  pose proof (heap_upd_same _ _ _ (set_value v sd) H) as H1.
  rewrite (bind_Ret _ _ _ _ _ (modify_Some _ _ _ _ H1)), upd_upd.
  pose proof (heap_upd_same _ _ _ (set_state RESOLVED (set_value v sd)) H) as H2.
  rewrite (bind_Ret _ _ _ _ _ (modify_Some _ _ _ _ H2)), upd_upd.
  pose proof (heap_upd_same _ _ _
    (set_rejectList [] (set_state RESOLVED (set_value v sd))) H) as H3.
  rewrite (bind_Ret _ _ _ _ _ (deref_Some _ _ _ H3)).
  simpl resolveList. rewrite Hl. simpl for_each.
  rewrite (bind_Ret _ _ _ _ tt eq_refl).
  rewrite (modify_Some _ _ _ _ H3), upd_upd.
  reflexivity.
Qed.

(** [reject] on a cell whose reject list is empty. *)
Lemma StateData_reject_drained (rec : call -> M unit) (w : World)
    (a : addr) (sd : StateData) (ep : exception_ptr) :
  heap w !! a = Some sd -> rejectList sd = [] ->
  StateData_reject rec a ep w
  = Ret tt (upd w a (mkStateData (value sd) REJECTED ep [] [])).
Proof.
  intros H Hl. unfold StateData_reject.
  rewrite (bind_Ret _ _ _ _ _ (modify_Some _ _ _ _ H)).
  pose proof (heap_upd_same _ _ _ (set_err_ptr ep sd) H) as H1.
  rewrite (bind_Ret _ _ _ _ _ (modify_Some _ _ _ _ H1)), upd_upd.
  pose proof (heap_upd_same _ _ _ (set_state REJECTED (set_err_ptr ep sd)) H) as H2.
  rewrite (bind_Ret _ _ _ _ _ (modify_Some _ _ _ _ H2)), upd_upd.
  pose proof (heap_upd_same _ _ _
    (set_resolveList [] (set_state REJECTED (set_err_ptr ep sd))) H) as H3.
  rewrite (bind_Ret _ _ _ _ _ (deref_Some _ _ _ H3)).
  simpl rejectList. rewrite Hl. simpl for_each.
  rewrite (bind_Ret _ _ _ _ tt eq_refl).
  rewrite (modify_Some _ _ _ _ H3), upd_upd.
  reflexivity.
Qed.

(** ** Invariants of the dispatcher *)
Section Invariant.
Variable P : World -> Prop.

Lemma keeps_ret {A} (a : A) : keeps P (ret a).
Proof. intros w Hw. exact Hw. Qed.

Lemma keeps_throw {A} (e : exception) : keeps P (@throw A e).
Proof. intros w Hw. exact Hw. Qed.

Lemma keeps_stop {A} (s : stop) : keeps P (fun _ : World => @Stop A s).
Proof. intros w Hw. exact I. Qed.

Lemma keeps_bind {A B} (m : M A) (k : A -> M B) :
  keeps P m -> (forall a, keeps P (k a)) -> keeps P (bind m k).
Proof.
  intros Hm Hk w Hw. unfold bind. specialize (Hm w Hw).
  destruct (m w) as [a w1|e w1|s]; auto. now apply Hk.
Qed.

Lemma keeps_try_catch {A} (body : M A) (handler : exception -> M A) :
  keeps P body -> (forall e, keeps P (handler e)) ->
  keeps P (try_catch body handler).
Proof.
  intros Hb Hh w Hw. unfold try_catch. specialize (Hb w Hw).
  destruct (body w) as [a w1|e w1|s]; auto. now apply Hh.
Qed.

Lemma keeps_guard {A} (test : World -> bool) (m : M A) (s : stop) :
  keeps P m -> keeps P (fun w => if test w then m w else Stop s).
Proof.
  intros Hm w Hw. destruct (test w); [now apply Hm | exact I].
Qed.

Lemma keeps_for_each {A} (body : A -> M unit) (intact : World -> bool)
    (l : list A) :
  (forall fn, keeps P (body fn)) -> keeps P (for_each body intact l).
Proof.
  intros Hb. induction l as [|fn rest IH]; simpl.
  - apply keeps_ret.
  - apply keeps_bind; [apply Hb|]. intros _.
    now apply (keeps_guard intact (for_each body intact rest) Undefined).
Qed.
End Invariant.

Section Settled.
Variable a : addr.








End Settled.

(** ** Subscribing: [done] and [fail] case by case *)

Lemma fail_unbound (n : nat) (cbFail : option ErrCallback) (w : World) :
  exec (S n) (CallFail None cbFail) w = Raise Promise_invalid w.
Proof. reflexivity. Qed.


Lemma fail_null (n : nat) (a : addr) (w : World) :
  exec (S n) (CallFail (Some a) None) w = Ret tt w.
Proof. reflexivity. Qed.

Lemma fail_pending (n : nat) (a : addr) (fn : ErrCallback) (w : World)
    (sd : StateData) :
  heap w !! a = Some sd -> state sd = PENDING ->
  exec (S n) (CallFail (Some a) (Some fn)) w
  = Ret tt (upd w a (set_rejectList (rejectList sd ++ [fn]) sd)).
Proof.
  intros H Hs. rewrite exec_S. simpl. 
  rewrite (bind_Ret _ _ _ _ _ (deref_Some _ _ _ H)), Hs.
  now rewrite (modify_Some _ _ _ _ H).
Qed.

Lemma fail_rejected (n : nat) (a : addr) (fn : ErrCallback) (w : World)
    (sd : StateData) :
  heap w !! a = Some sd -> state sd = REJECTED ->
  exec (S n) (CallFail (Some a) (Some fn)) w
  = exec n (InvokeErr fn (err_ptr sd)) w.
Proof.
  intros H Hs. rewrite exec_S. simpl.
  now rewrite (bind_Ret _ _ _ _ _ (deref_Some _ _ _ H)), Hs.
Qed.

Lemma fail_resolved (n : nat) (a : addr) (cbFail : option ErrCallback)
    (w : World) (sd : StateData) :
  heap w !! a = Some sd -> state sd = RESOLVED ->
  exec (S n) (CallFail (Some a) cbFail) w = Ret tt w.
Proof.
  intros H Hs. rewrite exec_S. simpl. destruct cbFail as [fn|]; [|reflexivity].
  now rewrite (bind_Ret _ _ _ _ _ (deref_Some _ _ _ H)), Hs.
Qed.

Lemma done_only_pending (n : nat) (a : addr) (fn : Callback) (w : World)
    (sd : StateData) :
  heap w !! a = Some sd -> state sd = PENDING ->
  exec (S n) (CallDone (Some a) (Some fn) None) w
  = Ret tt (upd w a (set_resolveList (resolveList sd ++ [fn]) sd)).
Proof.
  intros H Hs. rewrite exec_S. simpl.
  rewrite (bind_Ret _ _ _ _ tt eq_refl).
  rewrite (bind_Ret _ _ _ _ _ (deref_Some _ _ _ H)), Hs.
  now rewrite (modify_Some _ _ _ _ H).
Qed.

Lemma done_only_resolved (n : nat) (a : addr) (fn : Callback) (w : World)
    (sd : StateData) :
  heap w !! a = Some sd -> state sd = RESOLVED ->
  exec (S n) (CallDone (Some a) (Some fn) None) w
  = exec n (Invoke fn (value sd)) w.
Proof.
  intros H Hs. rewrite exec_S. simpl.
  rewrite (bind_Ret _ _ _ _ tt eq_refl).
  now rewrite (bind_Ret _ _ _ _ _ (deref_Some _ _ _ H)), Hs.
Qed.

Lemma done_only_rejected (n : nat) (a : addr) (cbSuccess : option Callback)
    (w : World) (sd : StateData) :
  heap w !! a = Some sd -> state sd = REJECTED ->
  exec (S n) (CallDone (Some a) cbSuccess None) w = Ret tt w.
Proof.
  intros H Hs. rewrite exec_S. simpl.
  rewrite (bind_Ret _ _ _ _ tt eq_refl).
  destruct cbSuccess as [fn|]; [|reflexivity].
  now rewrite (bind_Ret _ _ _ _ _ (deref_Some _ _ _ H)), Hs.
Qed.

(** [done] with both callbacks, on a cell in each of the three states. *)
Lemma done_both_pending (n : nat) (a : addr) (fn : Callback)
    (fe : ErrCallback) (w : World) (sd : StateData) :
  heap w !! a = Some sd -> state sd = PENDING ->
  exec (S (S n)) (CallDone (Some a) (Some fn) (Some fe)) w
  = Ret tt (upd w a (mkStateData (value sd) PENDING (err_ptr sd)
                       (resolveList sd ++ [fn]) (rejectList sd ++ [fe]))).
Proof.
  intros H Hs. rewrite exec_S. simpl.
  rewrite (bind_Ret _ _ _ _ _ (fail_pending n a fe w sd H Hs)).
  pose proof (heap_upd_same _ _ _
    (set_rejectList (rejectList sd ++ [fe]) sd) H) as H1.
  rewrite (bind_Ret _ _ _ _ _ (deref_Some _ _ _ H1)).
  change (state (set_rejectList (rejectList sd ++ [fe]) sd)) with (state sd).
  rewrite Hs, (modify_Some _ _ _ _ H1), upd_upd.
  unfold set_resolveList, set_rejectList. simpl. now rewrite Hs.
Qed.

Lemma done_both_resolved (n : nat) (a : addr) (fn : Callback)
    (fe : ErrCallback) (w : World) (sd : StateData) :
  heap w !! a = Some sd -> state sd = RESOLVED ->
  exec (S (S n)) (CallDone (Some a) (Some fn) (Some fe)) w
  = exec (S n) (Invoke fn (value sd)) w.
Proof.
  intros H Hs. rewrite exec_S. simpl.
  rewrite (bind_Ret _ _ _ _ _ (fail_resolved n a (Some fe) w sd H Hs)).
  now rewrite (bind_Ret _ _ _ _ _ (deref_Some _ _ _ H)), Hs.
Qed.

Lemma done_both_rejected (n : nat) (a : addr) (fn : Callback)
    (fe : ErrCallback) (w w' : World) (sd : StateData) :
  heap w !! a = Some sd -> state sd = REJECTED ->
  exec n (InvokeErr fe (err_ptr sd)) w = Ret tt w' ->
  heap w' !! a = Some sd ->
  exec (S (S n)) (CallDone (Some a) (Some fn) (Some fe)) w = Ret tt w'.
Proof.
  intros H Hs Hcall H'. rewrite exec_S. unfold step, Promise_done_body.
  rewrite <- (fail_rejected n a fe w sd H Hs) in Hcall.
  rewrite (bind_Ret _ _ _ _ _ Hcall).
  now rewrite (bind_Ret _ _ _ _ _ (deref_Some _ _ _ H')), Hs.
Qed.

(** After [resolve] has returned, the cell's resolve list is empty. *)
Lemma resolve_returns_drained (fuel : nat) (a : addr) (v : val)
    (w w1 : World) (u : unit) :
  exec fuel (CallResolve a v) w = Ret u w1 ->
  exists sd, heap w1 !! a = Some sd /\ resolveList sd = [].
Proof.
  destruct fuel as [|n]; [discriminate|].
  rewrite exec_S. simpl. unfold StateData_resolve. intros H.
  do 5 (apply bind_Ret_inv in H; destruct H as (? & ? & _ & H)).
  apply modify_Ret_inv in H. destruct H as (sd & Hsd & ->).
  exists (set_resolveList [] sd). split; [|reflexivity].
  now apply heap_upd_same with sd.
Qed.

(** ** Settling a cell that is already settled *)




(** C2 (as amended).  After a first [resolve(v1)] has returned, a second
    [resolve(v2)] invokes nothing, so no callback that fired at the first
    resolve fires again; but it overwrites the stored value, and a callback
    registered with [done] after the second call is invoked with [v2]. *)
Theorem second_resolve_refires_nothing_but_overwrites
    (w0 w1 : World) (a : addr) (v1 v2 : val) (fuel : nat) :
  state_of w0 a = Some PENDING ->
  Deferred_resolve fuel a v1 w0 = Ret tt w1 ->
  v2 <> v1 ->
  exists w2,
    (forall n, Deferred_resolve (S n) a v2 w1 = Ret tt w2)
    /\ trace w2 = trace w1
    /\ value_of w2 a = Some v2
    /\ forall n id,
         Promise_done (2 + n) (Some a) (Some (Observer id)) None w2
         = Ret (Some a) (mkWorld (heap w2) (trace w1 ++ [Called id v2])).
Proof.
  intros _ Hfirst _.
  destruct (resolve_returns_drained _ _ _ _ _ _ Hfirst) as (sd & Hsd & Hl).
  exists (upd w1 a (mkStateData v2 RESOLVED (err_ptr sd) [] [])).
  pose proof (heap_upd_same w1 a sd
                (mkStateData v2 RESOLVED (err_ptr sd) [] []) Hsd) as H2.
  split; [|split; [|split]].
  - intros n. now apply StateData_resolve_drained.
  - reflexivity.
  - unfold value_of, cell. now rewrite H2.
  - intros n id. unfold Promise_done.
    rewrite (bind_Ret _ _ _ _ tt
               (done_only_resolved (S n) a (Observer id) _ _ H2 eq_refl)).
    reflexivity.
Qed.

Lemma second_resolve_refires_nothing_but_overwrites_witness :
  let w0 := mkWorld [mkStateData VEmpty PENDING None [Observer 7] []] [] in
  let w1 := mkWorld [StateData_of_value (VInt 1)] [Called 7 (VInt 1)] in
  exists w2,
    (forall n, Deferred_resolve (S n) 0 (VInt 2) w1 = Ret tt w2)
    /\ trace w2 = trace w1
    /\ value_of w2 0 = Some (VInt 2)
    /\ forall n id,
         Promise_done (2 + n) (Some 0) (Some (Observer id)) None w2
         = Ret (Some 0) (mkWorld (heap w2) (trace w1 ++ [Called id (VInt 2)])).
Proof.
  intros w0 w1.
  apply (second_resolve_refires_nothing_but_overwrites
           w0 w1 0 (VInt 1) (VInt 2) 2).
  - reflexivity.
  - reflexivity.
  - discriminate.
Defined.

(** C2, the claim as stated fails: after [resolve(1)] and then
    [resolve(2)], a callback registered with [done] is called with 2. *)
Lemma later_callback_sees_second_value :
  (dfd <- Deferred_new ;;
   Promise_done 1 (Deferred_promise dfd) (Some (Observer 7)) None ;;
   Deferred_resolve 2 dfd (VInt 1) ;;
   Deferred_resolve 2 dfd (VInt 2) ;;
   Promise_done 2 (Deferred_promise dfd) (Some (Observer 8)) None)
    empty_world
  = Ret (Some 0)
        (mkWorld [StateData_of_value (VInt 2)]
                 [Called 7 (VInt 1); Called 8 (VInt 2)])
  /\ Called 8 (VInt 2) <> Called 8 (VInt 1).
Proof. split; [reflexivity | discriminate]. Qed.

(** ** Subscribing to a settled promise *)

(** C8.  On the promise of a [Deferred] constructed from [v],
    [done(onSuccess)] is one synchronous call [onSuccess(v)]: it runs
    before [done] returns, once, and the callback is not stored in the
    cell. *)
Theorem done_on_pre_resolved_calls_once (w : World) (v : val) (n : nat) :
  (forall fn : Callback,
      (dfd <- Deferred_of_value v ;;
       Promise_done (S n) (Deferred_promise dfd) (Some fn) None) w
      = (dfd <- Deferred_of_value v ;;
         exec n (Invoke fn v) ;;
         ret (Deferred_promise dfd)) w)
  /\ (forall id : nat,
      (dfd <- Deferred_of_value v ;;
       Promise_done (2 + n) (Deferred_promise dfd) (Some (Observer id)) None) w
      = Ret (Some (length (heap w)))
            (mkWorld (heap w ++ [StateData_of_value v])
                     (trace w ++ [Called id v]))).
Proof.
  assert (H : heap (mkWorld (heap w ++ [StateData_of_value v]) (trace w))
              !! length (heap w) = Some (StateData_of_value v)).
  { simpl. apply list_lookup_middle. reflexivity. }
  assert (Hmk : Deferred_of_value v w
                = Ret (length (heap w))
                      (mkWorld (heap w ++ [StateData_of_value v]) (trace w)))
    by reflexivity.
  split.
  - intros fn. rewrite !(bind_Ret _ _ _ _ _ Hmk).
    unfold Promise_done, Deferred_promise, bind.
    now rewrite (done_only_resolved n _ fn _ _ H eq_refl).
  - intros id. rewrite (bind_Ret _ _ _ _ _ Hmk).
    change (2 + n) with (S (S n)).
    unfold Promise_done, Deferred_promise, bind.
    now rewrite (done_only_resolved (S n) _ (Observer id) _ _ H eq_refl).
Qed.

(** C9.  [done] and [fail] on an unbound promise throw
    [std::runtime_error("Promise invalid")]: the call does not return
    normally, nothing is registered or invoked, and the exception is an
    ordinary one the caller can catch. *)
Theorem unbound_promise_throws_invalid (p : Promise) :
  Promise_isValid p = false ->
  forall (n : nat) (cbSuccess : option Callback)
         (cbFail : option ErrCallback) (w : World),
    Promise_done (S n) p cbSuccess cbFail w = Raise Promise_invalid w
    /\ Promise_fail (S n) p cbFail w = Raise Promise_invalid w
    /\ try_catch (Promise_done (S n) p cbSuccess cbFail)
                 (fun _ => ret p) w = Ret p w.
Proof.
  intros Hp n cbSuccess cbFail w.
  destruct p as [a|]; [discriminate|]. repeat split.
Qed.

Lemma unbound_promise_throws_invalid_witness :
  Promise_done 1 None (Some (Observer 0)) (Some (ErrObserver 1)) empty_world
  = Raise (runtime_error "Promise invalid") empty_world
  /\ Promise_fail 1 None (Some (ErrObserver 1)) empty_world
     = Raise (runtime_error "Promise invalid") empty_world.
Proof.
  destruct (unbound_promise_throws_invalid None eq_refl 0
              (Some (Observer 0)) (Some (ErrObserver 1)) empty_world)
    as (H1 & H2 & _).
  split; assumption.
Defined.

(** C10.  [done(onSuccess)] without a failure callback on a rejected
    cell, and [fail(onFail)] on a resolved cell, return the promise they
    were called on and leave the whole world as it was: nothing is
    invoked, nothing is queued, and state, value, error and both lists of
    the cell are untouched. *)
Theorem subscribing_to_the_other_outcome_is_a_no_op
    (w : World) (a : addr) (sd : StateData) :
  cell w a = Some sd ->
  (state sd = REJECTED ->
   forall (n : nat) (onSuccess : Callback),
     Promise_done (S n) (Some a) (Some onSuccess) None w = Ret (Some a) w)
  /\ (state sd = RESOLVED ->
      forall (n : nat) (onFail : ErrCallback),
        Promise_fail (S n) (Some a) (Some onFail) w = Ret (Some a) w).
Proof.
  intros Ha. split; intros Hs n cb.
  - unfold Promise_done.
    now rewrite (bind_Ret _ _ _ _ tt (done_only_rejected n a _ w sd Ha Hs)).
  - unfold Promise_fail.
    now rewrite (bind_Ret _ _ _ _ tt (fail_resolved n a _ w sd Ha Hs)).
Qed.

Lemma subscribing_to_the_other_outcome_is_a_no_op_witness :
  let w := mkWorld [StateData_of_error (Some (runtime_error "no"))] [] in
  let w' := mkWorld [StateData_of_value (VInt 4)] [] in
  Promise_done 1 (Some 0) (Some (Observer 0)) None w = Ret (Some 0) w
  /\ Promise_fail 1 (Some 0) (Some (ErrObserver 1)) w' = Ret (Some 0) w'.
Proof.
  intros w w'. split.
  - exact (proj1 (subscribing_to_the_other_outcome_is_a_no_op w 0
                    (StateData_of_error (Some (runtime_error "no"))) eq_refl)
                 eq_refl 0 (Observer 0)).
  - exact (proj2 (subscribing_to_the_other_outcome_is_a_no_op w' 0
                    (StateData_of_value (VInt 4)) eq_refl)
                 eq_refl 0 (ErrObserver 1)).
Defined.

(** ** Derived promises: [then], [thenPipe], [convert_cast] *)

Lemma heap_alloc_new (w : World) (sd : StateData) :
  heap (alloc w sd) !! length (heap w) = Some sd.
Proof. simpl. now apply list_lookup_middle. Qed.

Lemma heap_alloc_old (w : World) (sd x : StateData) (a : addr) :
  heap w !! a = Some x -> heap (alloc w sd) !! a = Some x.
Proof. intros H. simpl. now apply lookup_app_l_Some. Qed.

Lemma upd_alloc_new (w : World) (sd sd' : StateData) :
  upd (alloc w sd) (length (heap w)) sd' = alloc w sd'.
Proof.
  unfold upd, alloc. simpl. f_equal.
  rewrite insert_app_r_alt by lia. now rewrite Nat.sub_diag.
Qed.

Lemma Deferred_new_alloc (w : World) :
  Deferred_new w = Ret (length (heap w)) (alloc w StateData_pending).
Proof. reflexivity. Qed.

Lemma resolve_fresh (n : nat) (w : World) (u : val) :
  exec (S n) (CallResolve (length (heap w)) u) (alloc w StateData_pending)
  = Ret tt (alloc w (StateData_of_value u)).
Proof.
  rewrite exec_S. simpl step.
  rewrite (StateData_resolve_drained _ _ _ _ u
             (heap_alloc_new w StateData_pending) eq_refl).
  now rewrite upd_alloc_new.
Qed.

Lemma reject_fresh (n : nat) (w : World) (ep : exception_ptr) :
  exec (S n) (CallReject (length (heap w)) ep) (alloc w StateData_pending)
  = Ret tt (alloc w (StateData_of_error ep)).
Proof.
  rewrite exec_S. simpl step.
  rewrite (StateData_reject_drained _ _ _ _ ep
             (heap_alloc_new w StateData_pending) eq_refl).
  now rewrite upd_alloc_new.
Qed.

(** [done(onDone, onFail)] on a resolved cell calls [onDone] and nothing
    else; on a rejected cell it calls [onFail] and nothing else. *)
Lemma Promise_done_resolved (n : nat) (a : addr) (fn : Callback)
    (fe : ErrCallback) (w w' : World) (sd : StateData) :
  heap w !! a = Some sd -> state sd = RESOLVED ->
  exec (S n) (Invoke fn (value sd)) w = Ret tt w' ->
  Promise_done (S (S n)) (Some a) (Some fn) (Some fe) w = Ret (Some a) w'.
Proof.
  intros H Hs Hcall. unfold Promise_done.
  rewrite <- (done_both_resolved n a fn fe w sd H Hs) in Hcall.
  now rewrite (bind_Ret _ _ _ _ _ Hcall).
Qed.

Lemma Promise_done_rejected (n : nat) (a : addr) (fn : Callback)
    (fe : ErrCallback) (w w' : World) (sd : StateData) :
  heap w !! a = Some sd -> state sd = REJECTED ->
  exec n (InvokeErr fe (err_ptr sd)) w = Ret tt w' ->
  heap w' !! a = Some sd ->
  Promise_done (S (S n)) (Some a) (Some fn) (Some fe) w = Ret (Some a) w'.
Proof.
  intros H Hs Hcall H'. unfold Promise_done.
  now rewrite (bind_Ret _ _ _ _ _
                 (done_both_rejected n a fn fe w w' sd H Hs Hcall H')).
Qed.

(** [then] on a resolved promise whose handler returns [u]. *)
Lemma doPromiseThen_resolved_returns (n : nat) (w : World) (a : addr)
    (sd : StateData) (f : val -> outcome val)
    (cbFail : option (exception_ptr -> outcome val)) (u : val) :
  heap w !! a = Some sd -> state sd = RESOLVED -> f (value sd) = returns u ->
  doPromiseThen (3 + n) (Some a) (Some f) cbFail w
  = Ret (Some (length (heap w))) (alloc w (StateData_of_value u)).
Proof.
  intros H Hs Hf. unfold doPromiseThen.
  rewrite (bind_Ret _ _ _ _ _ (Deferred_new_alloc w)).
  erewrite bind_Ret; [reflexivity|].
  apply Promise_done_resolved with sd;
    [now apply heap_alloc_old | exact Hs |].
  rewrite exec_S. simpl. rewrite Hf. apply resolve_fresh.
Qed.

(** [then] on a resolved promise whose handler throws [e]. *)
Lemma doPromiseThen_resolved_throws (n : nat) (w : World) (a : addr)
    (sd : StateData) (f : val -> outcome val)
    (cbFail : option (exception_ptr -> outcome val)) (e : exception) :
  heap w !! a = Some sd -> state sd = RESOLVED -> f (value sd) = throws e ->
  doPromiseThen (3 + n) (Some a) (Some f) cbFail w
  = Ret (Some (length (heap w))) (alloc w (StateData_of_error (Some e))).
Proof.
  intros H Hs Hf. unfold doPromiseThen.
  rewrite (bind_Ret _ _ _ _ _ (Deferred_new_alloc w)).
  erewrite bind_Ret; [reflexivity|].
  apply Promise_done_resolved with sd;
    [now apply heap_alloc_old | exact Hs |].
  rewrite exec_S. simpl. rewrite Hf. apply reject_fresh.
Qed.

(** [then] on a rejected promise whose failure handler throws [e]. *)
Lemma doPromiseThen_rejected_throws (n : nat) (w : World) (a : addr)
    (sd : StateData) (cbSuccess : option (val -> outcome val))
    (f : exception_ptr -> outcome val) (e : exception) :
  heap w !! a = Some sd -> state sd = REJECTED -> f (err_ptr sd) = throws e ->
  doPromiseThen (4 + n) (Some a) cbSuccess (Some f) w
  = Ret (Some (length (heap w))) (alloc w (StateData_of_error (Some e))).
Proof.
  intros H Hs Hf. unfold doPromiseThen.
  rewrite (bind_Ret _ _ _ _ _ (Deferred_new_alloc w)).
  erewrite bind_Ret; [reflexivity|].
  apply Promise_done_rejected with sd;
    [now apply heap_alloc_old | exact Hs | | now apply heap_alloc_old].
  rewrite exec_S. simpl. rewrite Hf. apply reject_fresh.
Qed.

(** C4.  [then(onSuccess)] on a resolved promise returns a new promise,
    bound to a new cell that is resolved with the value the handler
    returns. *)
Theorem then_resolves_to_handler_result (w : World) (a : addr)
    (sd : StateData) (onSuccess : val -> outcome val) (u : val) :
  cell w a = Some sd -> state sd = RESOLVED ->
  onSuccess (value sd) = returns u ->
  forall n,
    Promise_then (3 + n) (Some a) (Some onSuccess) None w
    = Ret (Some (length (heap w)))
          (mkWorld (heap w ++ [StateData_of_value u]) (trace w)).
Proof.
  intros H Hs Hf n. now apply doPromiseThen_resolved_returns with sd.
Qed.

(** C4 at the spec's instance: a promise resolved with 5 and the handler
    [x => x * 2] give a promise resolved with 10. *)
Lemma then_resolves_to_handler_result_witness :
  Promise_then 3 (Some 0) (Some (on_int (fun x => returns (VInt (x * 2))))) None
               (mkWorld [StateData_of_value (VInt 5)] [])
  = Ret (Some 1)
        (mkWorld [StateData_of_value (VInt 5); StateData_of_value (VInt 10)] []).
Proof.
  apply (then_resolves_to_handler_result
           (mkWorld [StateData_of_value (VInt 5)] []) 0
           (StateData_of_value (VInt 5))
           (on_int (fun x => returns (VInt (x * 2)))) (VInt 10)
           eq_refl eq_refl eq_refl 0).
Defined.

(** [thenPipe]: the handler throws an exception derived from
    [std::exception]. *)
Lemma pipe_handler_throws_std (n : nat) (w : World) (r : outcome PromiseExpr)
    (e : exception) :
  r = throws e -> derives_from_std_exception e = true ->
  pipe_handler (exec (S n)) (length (heap w)) r (alloc w StateData_pending)
  = Ret tt (alloc w (StateData_of_error (Some e))).
Proof.
  intros -> He. unfold pipe_handler, try_catch, throw. rewrite He.
  apply reject_fresh.
Qed.

(** ... and one that is not: the [catch (std::exception e)] clause does
    not match and the exception leaves the callback. *)
Lemma pipe_handler_throws_other (rec : call -> M unit) (dfd : addr)
    (w : World) (r : outcome PromiseExpr) (e : exception) :
  r = throws e -> derives_from_std_exception e = false ->
  pipe_handler rec dfd r w = Raise e w.
Proof.
  intros -> He. unfold pipe_handler, try_catch, throw. now rewrite He.
Qed.

Lemma thenPipe_resolved_throws_std (n : nat) (w : World) (a : addr)
    (sd : StateData) (h : val -> outcome PromiseExpr) (e : exception) :
  heap w !! a = Some sd -> state sd = RESOLVED ->
  h (value sd) = throws e -> derives_from_std_exception e = true ->
  Promise_thenPipe (3 + n) (Some a) h w
  = Ret (Some (length (heap w))) (alloc w (StateData_of_error (Some e))).
Proof.
  intros H Hs Hf He. unfold Promise_thenPipe.
  rewrite (bind_Ret _ _ _ _ _ (Deferred_new_alloc w)).
  erewrite bind_Ret; [reflexivity|].
  apply Promise_done_resolved with sd;
    [now apply heap_alloc_old | exact Hs |].
  rewrite exec_S. simpl step. now apply pipe_handler_throws_std.
Qed.

Lemma thenPipe2_resolved_throws_std (n : nat) (w : World) (a : addr)
    (sd : StateData) (h : val -> outcome PromiseExpr)
    (hf : exception_ptr -> outcome PromiseExpr) (e : exception) :
  heap w !! a = Some sd -> state sd = RESOLVED ->
  h (value sd) = throws e -> derives_from_std_exception e = true ->
  Promise_thenPipe2 (3 + n) (Some a) h hf w
  = Ret (Some (length (heap w))) (alloc w (StateData_of_error (Some e))).
Proof.
  intros H Hs Hf He. unfold Promise_thenPipe2.
  rewrite (bind_Ret _ _ _ _ _ (Deferred_new_alloc w)).
  erewrite bind_Ret; [reflexivity|].
  apply Promise_done_resolved with sd;
    [now apply heap_alloc_old | exact Hs |].
  rewrite exec_S. simpl step. now apply pipe_handler_throws_std.
Qed.

Lemma thenPipe2_rejected_throws_std (n : nat) (w : World) (a : addr)
    (sd : StateData) (h : val -> outcome PromiseExpr)
    (hf : exception_ptr -> outcome PromiseExpr) (e : exception) :
  heap w !! a = Some sd -> state sd = REJECTED ->
  hf (err_ptr sd) = throws e -> derives_from_std_exception e = true ->
  Promise_thenPipe2 (4 + n) (Some a) h hf w
  = Ret (Some (length (heap w))) (alloc w (StateData_of_error (Some e))).
Proof.
  intros H Hs Hf He. unfold Promise_thenPipe2.
  rewrite (bind_Ret _ _ _ _ _ (Deferred_new_alloc w)).
  erewrite bind_Ret; [reflexivity|].
  apply Promise_done_rejected with sd;
    [now apply heap_alloc_old | exact Hs | | now apply heap_alloc_old].
  rewrite exec_S. simpl step. now apply pipe_handler_throws_std.
Qed.

Lemma thenPipe_resolved_throws_other (n : nat) (w : World) (a : addr)
    (sd : StateData) (h : val -> outcome PromiseExpr) (e : exception) :
  heap w !! a = Some sd -> state sd = RESOLVED ->
  h (value sd) = throws e -> derives_from_std_exception e = false ->
  Promise_thenPipe (3 + n) (Some a) h w = Raise e (alloc w StateData_pending).
Proof.
  intros H Hs Hf He. unfold Promise_thenPipe.
  rewrite (bind_Ret _ _ _ _ _ (Deferred_new_alloc w)).
  unfold Promise_done. unfold bind at 1 2.
  rewrite (done_both_resolved (S n) a _ _ _ sd
             (heap_alloc_old w _ _ _ H) Hs).
  rewrite exec_S. simpl step.
  now rewrite (pipe_handler_throws_other _ _ _ _ e Hf He).
Qed.

Lemma thenPipe2_resolved_throws_other (n : nat) (w : World) (a : addr)
    (sd : StateData) (h : val -> outcome PromiseExpr)
    (hf : exception_ptr -> outcome PromiseExpr) (e : exception) :
  heap w !! a = Some sd -> state sd = RESOLVED ->
  h (value sd) = throws e -> derives_from_std_exception e = false ->
  Promise_thenPipe2 (3 + n) (Some a) h hf w
  = Raise e (alloc w StateData_pending).
Proof.
  intros H Hs Hf He. unfold Promise_thenPipe2.
  rewrite (bind_Ret _ _ _ _ _ (Deferred_new_alloc w)).
  unfold Promise_done. unfold bind at 1 2.
  rewrite (done_both_resolved (S n) a _ _ _ sd
             (heap_alloc_old w _ _ _ H) Hs).
  rewrite exec_S. simpl step.
  now rewrite (pipe_handler_throws_other _ _ _ _ e Hf He).
Qed.

Lemma thenPipe2_rejected_throws_other (n : nat) (w : World) (a : addr)
    (sd : StateData) (h : val -> outcome PromiseExpr)
    (hf : exception_ptr -> outcome PromiseExpr) (e : exception) :
  heap w !! a = Some sd -> state sd = REJECTED ->
  hf (err_ptr sd) = throws e -> derives_from_std_exception e = false ->
  Promise_thenPipe2 (3 + n) (Some a) h hf w
  = Raise e (alloc w StateData_pending).
Proof.
  intros H Hs Hf He. unfold Promise_thenPipe2.
  rewrite (bind_Ret _ _ _ _ _ (Deferred_new_alloc w)).
  unfold Promise_done. change (3 + n) with (S (S (S n))).
  rewrite exec_S. unfold step, Promise_done_body, bind.
  rewrite (fail_rejected (S n) a _ _ sd (heap_alloc_old w _ _ _ H) Hs).
  rewrite exec_S. unfold step, invoke_err.
  now rewrite (pipe_handler_throws_other _ _ _ _ e Hf He).
Qed.

(** C6 (as amended).  On a settled promise, take the handler that
    [thenPipe] or [then] calls: the success handler if the promise is
    resolved, the failure handler if it is rejected.  If it throws an
    exception derived from [std::exception] (for [then]: any exception),
    the exception is caught: the call returns the derived promise, whose
    new cell is rejected with that exception.  If a handler of
    [thenPipe] throws an object of another type, the
    [catch (std::exception e)] clause does not match: the exception
    reaches the caller of [thenPipe] and the new cell stays pending.
    In every case the original cell and the trace are as before. *)
Theorem handler_exception_rejects_derived_promise
    (w : World) (a : addr) (sd : StateData) (e : exception) :
  cell w a = Some sd ->
  let derived := Some (length (heap w)) in
  let rejected_with_e :=
    mkWorld (heap w ++ [mkStateData VEmpty REJECTED (Some e) [] []]) (trace w) in
  let left_pending :=
    mkWorld (heap w ++ [StateData_pending]) (trace w) in
  (state sd = RESOLVED ->
   forall (onSuccess : val -> outcome PromiseExpr)
          (onFail : exception_ptr -> outcome PromiseExpr) (n : nat),
     onSuccess (value sd) = throws e ->
     (derives_from_std_exception e = true ->
      Promise_thenPipe (3 + n) (Some a) onSuccess w
      = Ret derived rejected_with_e
      /\ Promise_thenPipe2 (3 + n) (Some a) onSuccess onFail w
         = Ret derived rejected_with_e)
     /\ (derives_from_std_exception e = false ->
         Promise_thenPipe (3 + n) (Some a) onSuccess w = Raise e left_pending
         /\ Promise_thenPipe2 (3 + n) (Some a) onSuccess onFail w
            = Raise e left_pending))
  /\ (state sd = REJECTED ->
      forall (onSuccess : val -> outcome PromiseExpr)
             (onFail : exception_ptr -> outcome PromiseExpr) (n : nat),
        onFail (err_ptr sd) = throws e ->
        (derives_from_std_exception e = true ->
         Promise_thenPipe2 (4 + n) (Some a) onSuccess onFail w
         = Ret derived rejected_with_e)
        /\ (derives_from_std_exception e = false ->
            Promise_thenPipe2 (4 + n) (Some a) onSuccess onFail w
            = Raise e left_pending))
  /\ (state sd = RESOLVED ->
      forall (tSuccess : val -> outcome val)
             (tFail : option (exception_ptr -> outcome val)) (n : nat),
        tSuccess (value sd) = throws e ->
        Promise_then (3 + n) (Some a) (Some tSuccess) tFail w
        = Ret derived rejected_with_e)
  /\ (state sd = REJECTED ->
      forall (tSuccess : option (val -> outcome val))
             (tFail : exception_ptr -> outcome val) (n : nat),
        tFail (err_ptr sd) = throws e ->
        Promise_then (4 + n) (Some a) tSuccess (Some tFail) w
        = Ret derived rejected_with_e)
  /\ cell rejected_with_e a = Some sd
  /\ cell left_pending a = Some sd.
Proof.
  intros Ha derived rejected_with_e left_pending.
  split; [|split; [|split; [|split; [|split]]]].
  - intros Hs onSuccess onFail n Hh. split; intros He; split.
    + exact (thenPipe_resolved_throws_std n w a sd onSuccess e Ha Hs Hh He).
    + exact (thenPipe2_resolved_throws_std n w a sd onSuccess onFail e
               Ha Hs Hh He).
    + exact (thenPipe_resolved_throws_other n w a sd onSuccess e Ha Hs Hh He).
    + exact (thenPipe2_resolved_throws_other n w a sd onSuccess onFail e
               Ha Hs Hh He).
  - intros Hs onSuccess onFail n Hh. split; intros He.
    + exact (thenPipe2_rejected_throws_std n w a sd onSuccess onFail e
               Ha Hs Hh He).
    + exact (thenPipe2_rejected_throws_other (S n) w a sd onSuccess onFail e
               Ha Hs Hh He).
  - intros Hs tSuccess tFail n Hh.
    exact (doPromiseThen_resolved_throws n w a sd tSuccess tFail e Ha Hs Hh).
  - intros Hs tSuccess tFail n Hh.
    exact (doPromiseThen_rejected_throws n w a sd tSuccess tFail e Ha Hs Hh).
  - exact (heap_alloc_old w _ sd a Ha).
  - exact (heap_alloc_old w _ sd a Ha).
Qed.

(** C6 at the spec's instance, a promise resolved with 5 whose handler
    throws; and the failure handler of a rejected promise. *)
Lemma handler_exception_rejects_derived_promise_witness :
  let w := mkWorld [StateData_of_value (VInt 5)] [] in
  let boom := runtime_error "boom" in
  let w' := mkWorld [StateData_of_value (VInt 5);
                     mkStateData VEmpty REJECTED (Some boom) [] []] [] in
  let r := mkWorld [StateData_of_error (Some (runtime_error "first"))] [] in
  let r' := mkWorld [StateData_of_error (Some (runtime_error "first"));
                     mkStateData VEmpty REJECTED (Some boom) [] []] [] in
  Promise_thenPipe 3 (Some 0) (fun _ => throws boom) w = Ret (Some 1) w'
  /\ Promise_then 3 (Some 0) (Some (fun _ => throws boom)) None w
     = Ret (Some 1) w'
  /\ cell w' 0 = Some (StateData_of_value (VInt 5))
  /\ Promise_thenPipe2 4 (Some 0) (fun _ => throws boom)
       (fun _ => throws boom) r = Ret (Some 1) r'.
Proof.
  intros w boom w' r r'.
  destruct (handler_exception_rejects_derived_promise w 0
              (StateData_of_value (VInt 5)) boom eq_refl)
    as (Hpipe & _ & Hthen & _ & Hcell & _).
  destruct (handler_exception_rejects_derived_promise r 0
              (StateData_of_error (Some (runtime_error "first"))) boom eq_refl)
    as (_ & Hrej & _).
  split; [|split; [|split]].
  - exact (proj1 (proj1 (Hpipe eq_refl (fun _ => throws boom)
                           (fun _ => throws boom) 0 eq_refl) eq_refl)).
  - exact (Hthen eq_refl (fun _ => throws boom) None 0 eq_refl).
  - exact Hcell.
  - exact (proj1 (Hrej eq_refl (fun _ => throws boom)
                    (fun _ => throws boom) 0 eq_refl) eq_refl).
Defined.

(** C6, the claim as stated fails for [thenPipe]: a handler that throws
    an [int] on a promise resolved with 5.  The exception reaches the
    caller of [thenPipe], no promise is returned, and the new cell is
    left pending. *)
Lemma thenPipe_lets_foreign_exception_escape :
  Promise_thenPipe 3 (Some 0) (fun _ => throws (thrown_value (VInt 42)))
                   (mkWorld [StateData_of_value (VInt 5)] [])
  = Raise (thrown_value (VInt 42))
          (mkWorld [StateData_of_value (VInt 5); StateData_pending] []).
Proof. reflexivity. Qed.

(** C7.  [convert_cast<U>()] on a resolved promise returns a promise that
    is resolved with the converted value when the conversion succeeds and
    rejected with the conversion's exception when it throws; in both
    cases the call returns normally.  For [U = T] it is a copy of the
    promise itself. *)
Theorem convert_cast_resolves_or_rejects (w : World) (a : addr)
    (sd : StateData) (conv : val -> outcome val) :
  cell w a = Some sd -> state sd = RESOLVED ->
  forall n,
    Promise_convert_cast (3 + n) (Some a) (Some conv) w
    = Ret (Some (length (heap w)))
          (mkWorld (heap w ++
                      [match conv (value sd) with
                       | returns u => mkStateData u RESOLVED None [] []
                       | throws e => mkStateData VEmpty REJECTED (Some e) [] []
                       end])
                   (trace w))
    /\ Promise_convert_cast n (Some a) None w = Ret (Some a) w.
Proof.
  intros H Hs n. split; [|reflexivity].
  unfold Promise_convert_cast, Promise_converting.
  destruct (conv (value sd)) as [u|e] eqn:E.
  - now apply doPromiseThen_resolved_returns with sd.
  - now apply doPromiseThen_resolved_throws with sd.
Qed.

Lemma convert_cast_resolves_or_rejects_witness :
  let w := mkWorld [StateData_of_value (VInt 3)] [] in
  Promise_convert_cast 3 (Some 0)
    (Some (on_int (fun x => returns (VStr (pretty x))))) w
  = Ret (Some 1)
        (mkWorld [StateData_of_value (VInt 3); StateData_of_value (VStr "3")] [])
  /\ Promise_convert_cast 3 (Some 0)
       (Some (fun _ => throws (runtime_error "bad cast"))) w
     = Ret (Some 1)
           (mkWorld [StateData_of_value (VInt 3);
                     StateData_of_error (Some (runtime_error "bad cast"))] []).
Proof.
  intros w. split.
  - exact (proj1 (convert_cast_resolves_or_rejects w 0
                    (StateData_of_value (VInt 3))
                    (on_int (fun x => returns (VStr (pretty x))))
                    eq_refl eq_refl 0)).
  - exact (proj1 (convert_cast_resolves_or_rejects w 0
                    (StateData_of_value (VInt 3))
                    (fun _ => throws (runtime_error "bad cast"))
                    eq_refl eq_refl 0)).
Defined.

(** ** Dispatch to a list of callbacks *)

Lemma StateData_resolve_unfold (rec : call -> M unit) (w : World)
    (a : addr) (sd : StateData) (v : val) :
  heap w !! a = Some sd ->
  StateData_resolve rec a v w
  = (for_each (fun fn => rec (Invoke fn v))
              (resolveList_size_is a (length (resolveList sd)))
              (resolveList sd) ;;
     modify a (set_resolveList []))
      (upd w a (mkStateData v RESOLVED (err_ptr sd) (resolveList sd) [])).
Proof.
  intros H. unfold StateData_resolve.
  rewrite (bind_Ret _ _ _ _ _ (modify_Some _ _ _ _ H)).
  pose proof (heap_upd_same _ _ _ (set_value v sd) H) as H1.
  rewrite (bind_Ret _ _ _ _ _ (modify_Some _ _ _ _ H1)), upd_upd.
  pose proof (heap_upd_same _ _ _ (set_state RESOLVED (set_value v sd)) H) as H2.
  rewrite (bind_Ret _ _ _ _ _ (modify_Some _ _ _ _ H2)), upd_upd.
  pose proof (heap_upd_same _ _ _
    (set_rejectList [] (set_state RESOLVED (set_value v sd))) H) as H3.
  now rewrite (bind_Ret _ _ _ _ _ (deref_Some _ _ _ H3)).
Qed.

Lemma StateData_reject_unfold (rec : call -> M unit) (w : World)
    (a : addr) (sd : StateData) (ep : exception_ptr) :
  heap w !! a = Some sd ->
  StateData_reject rec a ep w
  = (for_each (fun fn => rec (InvokeErr fn ep))
              (rejectList_size_is a (length (rejectList sd)))
              (rejectList sd) ;;
     modify a (set_rejectList []))
      (upd w a (mkStateData (value sd) REJECTED ep [] (rejectList sd))).
Proof.
  intros H. unfold StateData_reject.
  rewrite (bind_Ret _ _ _ _ _ (modify_Some _ _ _ _ H)).
  pose proof (heap_upd_same _ _ _ (set_err_ptr ep sd) H) as H1.
  rewrite (bind_Ret _ _ _ _ _ (modify_Some _ _ _ _ H1)), upd_upd.
  pose proof (heap_upd_same _ _ _ (set_state REJECTED (set_err_ptr ep sd)) H) as H2.
  rewrite (bind_Ret _ _ _ _ _ (modify_Some _ _ _ _ H2)), upd_upd.
  pose proof (heap_upd_same _ _ _
    (set_resolveList [] (set_state REJECTED (set_err_ptr ep sd))) H) as H3.
  now rewrite (bind_Ret _ _ _ _ _ (deref_Some _ _ _ H3)).
Qed.

Lemma for_each_cons {A} (body : A -> M unit) (intact : World -> bool)
    (fn : A) (rest : list A) (w : World) :
  for_each body intact (fn :: rest) w
  = match body fn w with
    | Ret _ w' =>
        if intact w' then for_each body intact rest w' else Stop Undefined
    | Raise e w' => Raise e w'
    | Stop s => Stop s
    end.
Proof. reflexivity. Qed.

(** Observers at the head of the list are called in order; each call
    appends one event and leaves the heap alone. *)
Lemma for_each_observers (n : nat) (v : val) (intact : World -> bool)
    (rest : list Callback) (ids : list nat) (w : World) :
  (forall t, intact (mkWorld (heap w) t) = true) ->
  for_each (fun fn => exec (S n) (Invoke fn v)) intact
           (map Observer ids ++ rest) w
  = for_each (fun fn => exec (S n) (Invoke fn v)) intact rest
      (mkWorld (heap w) (trace w ++ map (fun id => Called id v) ids)).
Proof.
  revert w. induction ids as [|id ids IH]; intros w Hi.
  - simpl. rewrite app_nil_r. now destruct w.
  - change (map Observer (id :: ids) ++ rest)
      with (Observer id :: (map Observer ids ++ rest)).
    rewrite for_each_cons.
    change (exec (S n) (Invoke (Observer id) v) w)
      with (Ret tt (mkWorld (heap w) (trace w ++ [Called id v]))).
    cbv beta iota. rewrite Hi.
    rewrite (IH (mkWorld (heap w) (trace w ++ [Called id v])) Hi).
    simpl. now rewrite <- app_assoc.
Qed.

Lemma for_each_err_observers (n : nat) (ep : exception_ptr)
    (intact : World -> bool) (rest : list ErrCallback) (ids : list nat)
    (w : World) :
  (forall t, intact (mkWorld (heap w) t) = true) ->
  for_each (fun fn => exec (S n) (InvokeErr fn ep)) intact
           (map ErrObserver ids ++ rest) w
  = for_each (fun fn => exec (S n) (InvokeErr fn ep)) intact rest
      (mkWorld (heap w) (trace w ++ map (fun id => CalledErr id ep) ids)).
Proof.
  revert w. induction ids as [|id ids IH]; intros w Hi.
  - simpl. rewrite app_nil_r. now destruct w.
  - change (map ErrObserver (id :: ids) ++ rest)
      with (ErrObserver id :: (map ErrObserver ids ++ rest)).
    rewrite for_each_cons.
    change (exec (S n) (InvokeErr (ErrObserver id) ep) w)
      with (Ret tt (mkWorld (heap w) (trace w ++ [CalledErr id ep]))).
    cbv beta iota. rewrite Hi.
    rewrite (IH (mkWorld (heap w) (trace w ++ [CalledErr id ep])) Hi).
    simpl. now rewrite <- app_assoc.
Qed.

(** [reject] on a cell whose reject list holds observers only: each is
    called once, in registration order, with [ep]. *)
Lemma reject_notifies_observers (n : nat) (w : World) (a : addr)
    (sd : StateData) (ep : exception_ptr) (ids : list nat) :
  heap w !! a = Some sd -> rejectList sd = map ErrObserver ids ->
  exec (S (S n)) (CallReject a ep) w
  = Ret tt (mkWorld (<[a := mkStateData (value sd) REJECTED ep [] []]> (heap w))
                    (trace w ++ map (fun id => CalledErr id ep) ids)).
Proof.
  intros H Hl. rewrite exec_S. unfold step.
  rewrite (StateData_reject_unfold _ _ _ _ _ H), Hl.
  set (sd1 := mkStateData (value sd) REJECTED ep [] (map ErrObserver ids)).
  pose proof (heap_upd_same w a sd sd1 H) as H1.
  unfold bind. rewrite <- (app_nil_r (map ErrObserver ids)) at 2.
  rewrite for_each_err_observers.
  - simpl for_each. unfold ret.
    erewrite modify_Some; [|exact H1].
    unfold upd. simpl. now rewrite list_insert_insert_eq.
  - intros t. unfold rejectList_size_is. simpl heap. simpl in H1. rewrite H1.
    simpl. apply Nat.eqb_refl.
Qed.

Lemma resolve_notifies_observers (n : nat) (w : World) (a : addr)
    (sd : StateData) (v : val) (ids : list nat) :
  heap w !! a = Some sd -> resolveList sd = map Observer ids ->
  exec (S (S n)) (CallResolve a v) w
  = Ret tt (mkWorld (<[a := mkStateData v RESOLVED (err_ptr sd) [] []]> (heap w))
                    (trace w ++ map (fun id => Called id v) ids)).
Proof.
  intros H Hl. rewrite exec_S. unfold step.
  rewrite (StateData_resolve_unfold _ _ _ _ _ H), Hl.
  set (sd1 := mkStateData v RESOLVED (err_ptr sd) (map Observer ids) []).
  pose proof (heap_upd_same w a sd sd1 H) as H1.
  unfold bind. rewrite <- (app_nil_r (map Observer ids)) at 2.
  rewrite for_each_observers.
  - simpl for_each. unfold ret.
    erewrite modify_Some; [|exact H1].
    unfold upd. simpl. now rewrite list_insert_insert_eq.
  - intros t. unfold resolveList_size_is. simpl heap. simpl in H1. rewrite H1.
    simpl. apply Nat.eqb_refl.
Qed.

(** ** Dropping the handles of a pending cell *)

Lemma destroy_deferreds_all_but_last (fuel : nat) (a : addr) (k p : nat)
    (w : World) :
  destroy_deferreds fuel a (S k) (mkOwners (S k) p) w
  = (shared_ptr_release fuel a (mkOwners 0 p) ;; ret (mkOwners 0 p)) w.
Proof.
  induction k as [|k IH].
  - simpl. unfold Deferred_destroy. simpl.
    unfold bind. destruct (shared_ptr_release fuel a (mkOwners 0 p) w);
      reflexivity.
  - change (destroy_deferreds fuel a (S (S k)) (mkOwners (S (S k)) p) w)
      with ((o' <- Deferred_destroy fuel a (mkOwners (S (S k)) p) ;;
             destroy_deferreds fuel a (S k) o') w).
    assert (E : Deferred_destroy fuel a (mkOwners (S (S k)) p) w
                = Ret (mkOwners (S k) p) w) by reflexivity.
    now rewrite (bind_Ret _ _ _ _ _ E).
Qed.

Lemma observers_capture_nothing (ids : list nat) :
  existsb captures_handle (map Observer ids) = false.
Proof. induction ids as [|i ids IH]; [reflexivity | exact IH]. Qed.

Lemma err_observers_capture_nothing (ids : list nat) :
  existsb err_captures_handle (map ErrObserver ids) = false.
Proof. induction ids as [|i ids IH]; [reflexivity | exact IH]. Qed.





(** ** [thenPipe] on a resolved promise: the handler returns a promise *)

Lemma pipe_handler_returns (rec : call -> M unit) (dfd : addr)
    (pe : PromiseExpr) (w w' : World) :
  (res <- make_promise rec pe ;;
   rec (CallDone res (Some (DfdResolve dfd)) (Some (DfdReject dfd)))) w
  = Ret tt w' ->
  pipe_handler rec dfd (returns pe) w = Ret tt w'.
Proof. intros H. unfold pipe_handler, try_catch. now rewrite H. Qed.

(** [thenPipe] on a resolved cell comes down to one call of [onDone]. *)
Lemma thenPipe_resolved (n : nat) (w w' : World) (a : addr) (sd : StateData)
    (h : val -> outcome PromiseExpr) (pe : PromiseExpr) :
  heap w !! a = Some sd -> state sd = RESOLVED ->
  h (value sd) = returns pe ->
  (res <- make_promise (exec (S n)) pe ;;
   exec (S n) (CallDone res (Some (DfdResolve (length (heap w))))
                        (Some (DfdReject (length (heap w))))))
    (alloc w StateData_pending) = Ret tt w' ->
  Promise_thenPipe (S (S (S n))) (Some a) h w
  = Ret (Some (length (heap w))) w'.
Proof.
  intros H Hs Hh Hrun. unfold Promise_thenPipe.
  rewrite (bind_Ret _ _ _ _ _ (Deferred_new_alloc w)).
  erewrite bind_Ret; [reflexivity|].
  apply Promise_done_resolved with sd;
    [now apply heap_alloc_old | exact Hs |].
  rewrite exec_S. unfold step, invoke. rewrite Hh.
  now apply pipe_handler_returns.
Qed.

Lemma upd_alloc_alloc (w : World) (x y z : StateData) :
  upd (alloc (alloc w x) y) (length (heap w)) z = alloc (alloc w z) y.
Proof.
  unfold upd, alloc. simpl. f_equal.
  rewrite insert_app_l by (rewrite length_app; simpl; lia).
  rewrite insert_app_r_alt by lia. now rewrite Nat.sub_diag.
Qed.

(** The handler returns [Promise<Uout>(u)]. *)
Lemma thenPipe_of_value (n : nat) (w : World) (a : addr) (sd : StateData)
    (h : val -> outcome PromiseExpr) (u : val) :
  heap w !! a = Some sd -> state sd = RESOLVED ->
  h (value sd) = returns (promise_of_value u) ->
  Promise_thenPipe (5 + n) (Some a) h w
  = Ret (Some (length (heap w)))
        (mkWorld (heap w ++ [StateData_of_value u; StateData_of_value u])
                 (trace w)).
Proof.
  intros H Hs Hh.
  apply (thenPipe_resolved (S (S n)) w _ a sd h _ H Hs Hh).
  set (w1 := alloc w StateData_pending).
  assert (Hmk : make_promise (exec (S (S (S n)))) (promise_of_value u) w1
                = Ret (Some (S (length (heap w))))
                      (alloc w1 (StateData_of_value u))).
  { unfold make_promise, make_shared, bind, ret. simpl.
    rewrite length_app. simpl. now rewrite Nat.add_1_r. }
  rewrite (bind_Ret _ _ _ _ _ Hmk).
  assert (Hin : heap (alloc w1 (StateData_of_value u)) !! S (length (heap w))
                = Some (StateData_of_value u)).
  { replace (S (length (heap w))) with (length (heap w1))
      by (unfold w1; simpl; rewrite length_app; simpl; lia).
    apply heap_alloc_new. }
  rewrite (done_both_resolved (S n) _ _ _ _ _ Hin eq_refl).
  rewrite exec_S. unfold step, invoke. rewrite exec_S. unfold step.
  assert (Hd : heap (alloc w1 (StateData_of_value u)) !! length (heap w)
               = Some StateData_pending).
  { apply heap_alloc_old. apply heap_alloc_new. }
  rewrite (StateData_resolve_drained _ _ _ _ _ Hd eq_refl).
  unfold w1. rewrite upd_alloc_alloc. unfold alloc. simpl.
  now rewrite <- app_assoc.
Qed.











(** * Further properties of Deferred.h *)

(** ** Invariants of a settled cell

    Any property [Q] of a settled cell that the six field stores of
    [resolve] and [reject] keep is kept by every call: the only other
    stores, the two [emplace_back] of [done] and [fail], are guarded by
    [state == PENDING]. *)
Section CellInvariant.
Variable a : addr.
Variable Q : StateData -> Prop.
Hypothesis Q_settled : forall sd, Q sd -> state sd <> PENDING.
Hypothesis Q_set_value : forall v sd, Q sd -> Q (set_value v sd).
Hypothesis Q_set_err_ptr : forall ep sd, Q sd -> Q (set_err_ptr ep sd).
Hypothesis Q_set_state :
  forall s sd, s <> PENDING -> Q sd -> Q (set_state s sd).
Hypothesis Q_clear_resolveList : forall sd, Q sd -> Q (set_resolveList [] sd).
Hypothesis Q_clear_rejectList : forall sd, Q sd -> Q (set_rejectList [] sd).

Lemma holds_deref (b : addr) : keeps (cell_has a Q) (deref b).
Proof.
  intros w Hw. unfold deref. destruct (heap w !! b); [exact Hw | exact I].
Qed.

Lemma holds_emit (ev : event) : keeps (cell_has a Q) (emit ev).
Proof. intros w Hw. exact Hw. Qed.

Lemma holds_make_shared (sd : StateData) :
  keeps (cell_has a Q) (make_shared sd).
Proof.
  intros w (sd0 & H & HQ). exists sd0. split; [|exact HQ].
  simpl. now apply lookup_app_l_Some.
Qed.

Lemma holds_modify (b : addr) (f : StateData -> StateData) :
  (forall sd, Q sd -> Q (f sd)) -> keeps (cell_has a Q) (modify b f).
Proof.
  intros Hf w (sd0 & H & HQ). unfold modify, bind, deref.
  destruct (heap w !! b) as [sd|] eqn:E; [|exact I].
  destruct (decide (b = a)) as [->|Hne].
  - exists (f sd). split.
    + simpl. apply list_lookup_insert_eq. now apply lookup_lt_Some in E.
    + apply Hf. congruence.
  - exists sd0. split; [|exact HQ]. simpl.
    now rewrite list_lookup_insert_ne.
Qed.

(** The guarded [emplace_back]: it is reached on a pending cell only, so
    never on the cell at [a]. *)
Lemma holds_guarded_push (b : addr) (g : StateData -> StateData)
    (on_resolved on_rejected : StateData -> M unit) :
  (forall sd, keeps (cell_has a Q) (on_resolved sd)) ->
  (forall sd, keeps (cell_has a Q) (on_rejected sd)) ->
  keeps (cell_has a Q)
        (sd <- deref b ;;
         match state sd with
         | PENDING => modify b g
         | RESOLVED => on_resolved sd
         | REJECTED => on_rejected sd
         end).
Proof.
  intros Hres Hrej w (sd0 & H & HQ). unfold bind at 1. unfold deref at 1.
  destruct (heap w !! b) as [sd|] eqn:E; [|exact I].
  assert (Hw : cell_has a Q w) by (exists sd0; split; assumption).
  destruct (state sd) eqn:Es; [|now apply Hres|now apply Hrej].
  unfold modify, bind, deref. rewrite E.
  destruct (decide (b = a)) as [->|Hne].
  - exfalso. apply (Q_settled sd0 HQ). congruence.
  - exists sd0. split; [|exact HQ]. simpl.
    now rewrite list_lookup_insert_ne.
Qed.

Lemma holds_step (rec : call -> M unit) :
  (forall c, keeps (cell_has a Q) (rec c)) ->
  forall c, keeps (cell_has a Q) (step rec c).
Proof.
  intros Hrec.
  assert (Hpipe : forall dfd r, keeps (cell_has a Q) (pipe_handler rec dfd r)).
  { intros dfd r. unfold pipe_handler. apply keeps_try_catch.
    - destruct r as [pe|e]; [|apply keeps_throw].
      apply keeps_bind; [|intros; apply Hrec].
      destruct pe as [v|ep|p]; simpl.
      + apply keeps_bind; [apply holds_make_shared|intros; apply keeps_ret].
      + unfold Promise_rejected_body.
        apply keeps_bind; [apply holds_make_shared|intros].
        apply keeps_bind; [apply Hrec|intros; apply keeps_ret].
      + apply keeps_ret.
    - intros e. destruct (derives_from_std_exception e);
        [apply Hrec | apply keeps_throw]. }
  assert (Hthen : forall dfd r, keeps (cell_has a Q) (then_handler rec dfd r)).
  { intros dfd [u|e]; apply Hrec. }
  intros [this v|this ep|this cbS cbF|this cbF|fn v|fn ep]; simpl.
  - unfold StateData_resolve.
    apply keeps_bind; [apply holds_modify; auto | intros _].
    apply keeps_bind;
      [apply holds_modify; intros; now apply Q_set_state | intros _].
    apply keeps_bind; [apply holds_modify; auto | intros _].
    apply keeps_bind; [apply holds_deref | intros sd].
    apply keeps_bind; [apply keeps_for_each; intros; apply Hrec | intros _].
    apply holds_modify; auto.
  - unfold StateData_reject.
    apply keeps_bind; [apply holds_modify; auto | intros _].
    apply keeps_bind;
      [apply holds_modify; intros; now apply Q_set_state | intros _].
    apply keeps_bind; [apply holds_modify; auto | intros _].
    apply keeps_bind; [apply holds_deref | intros sd].
    apply keeps_bind; [apply keeps_for_each; intros; apply Hrec | intros _].
    apply holds_modify; auto.
  - unfold Promise_done_body. destruct this as [m_data|]; [|apply keeps_throw].
    apply keeps_bind.
    + destruct cbF; [apply Hrec | apply keeps_ret].
    + intros _. destruct cbS as [fn|]; [|apply keeps_ret].
      apply (holds_guarded_push m_data _
               (fun sd => rec (Invoke fn (value sd))) (fun _ => ret tt));
        intros; [apply Hrec | apply keeps_ret].
  - unfold Promise_fail_body. destruct this as [m_data|]; [|apply keeps_throw].
    destruct cbF as [fn|]; [|apply keeps_ret].
    apply (holds_guarded_push m_data _
             (fun _ => ret tt) (fun sd => rec (InvokeErr fn (err_ptr sd))));
      intros; [apply keeps_ret | apply Hrec].
  - destruct fn as [id|dfd|dfd h|dfd h]; simpl;
      [apply holds_emit | apply Hrec | apply Hpipe | apply Hthen].
  - destruct fn as [id|dfd|dfd h|dfd h]; simpl;
      [apply holds_emit | apply Hrec | apply Hpipe | apply Hthen].
Qed.

Lemma holds_exec (fuel : nat) (c : call) : keeps (cell_has a Q) (exec fuel c).
Proof.
  revert c. induction fuel as [|n IH]; intros c.
  - apply keeps_stop.
  - rewrite exec_S. now apply holds_step.
Qed.

Lemma holds_run_ops (fuel : nat) (ops : list op) :
  keeps (cell_has a Q) (run_ops fuel ops).
Proof.
  induction ops as [|o rest IH]; simpl.
  - apply keeps_ret.
  - apply keeps_bind; [|intros; exact IH].
    apply keeps_try_catch; [apply holds_exec | intros; apply keeps_ret].
Qed.
End CellInvariant.

Lemma deref_Ret_inv (w w' : World) (a : addr) (sd : StateData) :
  deref a w = Ret sd w' -> w' = w /\ heap w !! a = Some sd.
Proof.
  unfold deref. destruct (heap w !! a) as [sd0|]; intros H; [|discriminate].
  inversion H. now subst.
Qed.

Lemma drained_exec (a : addr) (fuel : nat) (c : call) :
  keeps (cell_has a drained) (exec fuel c).
Proof.
  apply holds_exec; unfold drained; simpl; intros; intuition congruence.
Qed.

Lemma reject_drained_exec (a : addr) (fuel : nat) (c : call) :
  keeps (cell_has a reject_drained) (exec fuel c).
Proof.
  apply holds_exec; unfold reject_drained; simpl; intros; intuition congruence.
Qed.

Lemma resolve_drained_exec (a : addr) (fuel : nat) (c : call) :
  keeps (cell_has a resolve_drained) (exec fuel c).
Proof.
  apply holds_exec; unfold resolve_drained; simpl; intros; intuition congruence.
Qed.

(** X1.  Once a cell is settled and both of its lists are empty, no
    sequence of [resolve], [reject], [done] and [fail] calls, on this or
    any other cell, ever queues a callback on it again or makes it
    pending: it stays settled with both lists empty. *)
Theorem drained_cell_stays_drained (w : World) (a : addr) (sd : StateData) :
  cell w a = Some sd -> drained sd ->
  forall fuel ops w',
    run_ops fuel ops w = Ret tt w' ->
    exists sd', cell w' a = Some sd' /\ drained sd'.
Proof.
  intros H Hd fuel ops w' Hrun.
  assert (Hw : cell_has a drained w) by (exists sd; split; assumption).
  pose proof (holds_run_ops a drained) as Hk.
  specialize (Hk ltac:(unfold drained; intuition)
                 ltac:(unfold drained; simpl; intuition)
                 ltac:(unfold drained; simpl; intuition)
                 ltac:(unfold drained; simpl; intuition)
                 ltac:(unfold drained; simpl; intuition)
                 ltac:(unfold drained; simpl; intuition)
                 fuel ops w Hw).
  rewrite Hrun in Hk. exact Hk.
Qed.

Lemma drained_cell_stays_drained_witness :
  let w := mkWorld [StateData_of_value (VInt 1); StateData_pending] [] in
  exists sd',
    cell (mkWorld [StateData_of_value (VInt 1);
                   mkStateData VEmpty PENDING None [DfdResolve 0] []]
                  [Called 5 (VInt 1)]) 0 = Some sd'
    /\ drained sd'.
Proof.
  intros w.
  apply (drained_cell_stays_drained w 0 (StateData_of_value (VInt 1))
           eq_refl ltac:(repeat split; discriminate) 3
           [OpDone (Some 0) (Some (Observer 5)) (Some (ErrObserver 6));
            OpFail (Some 0) (Some (ErrObserver 7));
            OpDone (Some 1) (Some (DfdResolve 0)) None]).
  reflexivity.
Defined.

(** X2.  Whatever callbacks were queued, a [resolve] or [reject] call
    that returns leaves its cell settled with both callback lists
    empty. *)
Theorem settle_that_returns_leaves_cell_drained
    (fuel : nat) (a : addr) (v : val) (ep : exception_ptr) (w w' : World) :
  Deferred_resolve fuel a v w = Ret tt w'
  \/ Deferred_reject fuel a ep w = Ret tt w' ->
  exists sd', cell w' a = Some sd' /\ drained sd'.
Proof.
  unfold Deferred_resolve, Deferred_reject.
  destruct fuel as [|n]; [intros [H|H]; discriminate|].
  rewrite !exec_S. unfold step. intros [H|H].
  - unfold StateData_resolve in H.
    apply bind_Ret_inv in H. destruct H as (? & w1 & _ & H).
    apply bind_Ret_inv in H. destruct H as (? & w2 & H2 & H).
    apply bind_Ret_inv in H. destruct H as (? & w3 & H3 & H).
    apply bind_Ret_inv in H. destruct H as (sd3 & w3' & H3' & H).
    apply bind_Ret_inv in H. destruct H as (? & w4 & H4 & H).
    apply modify_Ret_inv in H2. destruct H2 as (sd1 & Hsd1 & ->).
    apply modify_Ret_inv in H3. destruct H3 as (sd2 & Hsd2 & ->).
    rewrite (heap_upd_same _ _ _ _ Hsd1) in Hsd2. inversion Hsd2; subst sd2.
    apply deref_Ret_inv in H3'. destruct H3' as (-> & Hsd3).
    assert (Hq : cell_has a reject_drained
                   (upd (upd w1 a (set_state RESOLVED sd1)) a
                        (set_rejectList [] (set_state RESOLVED sd1)))).
    { eexists. split; [exact Hsd3|].
      rewrite (heap_upd_same _ _ _ _ (heap_upd_same _ _ _ _ Hsd1)) in Hsd3.
      inversion Hsd3. split; [discriminate | reflexivity]. }
    pose proof (keeps_for_each _ _
                  (resolveList_size_is a (length (resolveList sd3)))
                  (resolveList sd3)
                  (fun fn => reject_drained_exec a n (Invoke fn v)) _ Hq) as Hk.
    rewrite H4 in Hk. destruct Hk as (sd4 & Hsd4 & Hs4 & Hr4).
    apply modify_Ret_inv in H. destruct H as (sd5 & Hsd5 & ->).
    rewrite Hsd4 in Hsd5. inversion Hsd5; subst sd5.
    exists (set_resolveList [] sd4). split.
    + now apply (heap_upd_same _ _ sd4).
    + repeat split; assumption.
  - unfold StateData_reject in H.
    apply bind_Ret_inv in H. destruct H as (? & w1 & _ & H).
    apply bind_Ret_inv in H. destruct H as (? & w2 & H2 & H).
    apply bind_Ret_inv in H. destruct H as (? & w3 & H3 & H).
    apply bind_Ret_inv in H. destruct H as (sd3 & w3' & H3' & H).
    apply bind_Ret_inv in H. destruct H as (? & w4 & H4 & H).
    apply modify_Ret_inv in H2. destruct H2 as (sd1 & Hsd1 & ->).
    apply modify_Ret_inv in H3. destruct H3 as (sd2 & Hsd2 & ->).
    rewrite (heap_upd_same _ _ _ _ Hsd1) in Hsd2. inversion Hsd2; subst sd2.
    apply deref_Ret_inv in H3'. destruct H3' as (-> & Hsd3).
    assert (Hq : cell_has a resolve_drained
                   (upd (upd w1 a (set_state REJECTED sd1)) a
                        (set_resolveList [] (set_state REJECTED sd1)))).
    { eexists. split; [exact Hsd3|].
      rewrite (heap_upd_same _ _ _ _ (heap_upd_same _ _ _ _ Hsd1)) in Hsd3.
      inversion Hsd3. split; [discriminate | reflexivity]. }
    pose proof (keeps_for_each _ _
                  (rejectList_size_is a (length (rejectList sd3)))
                  (rejectList sd3)
                  (fun fn => resolve_drained_exec a n (InvokeErr fn ep)) _ Hq)
      as Hk.
    rewrite H4 in Hk. destruct Hk as (sd4 & Hsd4 & Hs4 & Hr4).
    apply modify_Ret_inv in H. destruct H as (sd5 & Hsd5 & ->).
    rewrite Hsd4 in Hsd5. inversion Hsd5; subst sd5.
    exists (set_rejectList [] sd4). split.
    + now apply (heap_upd_same _ _ sd4).
    + repeat split; assumption.
Qed.

Lemma settle_that_returns_leaves_cell_drained_witness :
  exists sd',
    cell (mkWorld [StateData_of_value (VInt 1); StateData_of_value (VInt 1)]
                  [Called 3 (VInt 1)]) 0 = Some sd'
    /\ drained sd'.
Proof.
  apply (settle_that_returns_leaves_cell_drained 4 0 (VInt 1) None
           (mkWorld [mkStateData VEmpty PENDING None
                       [Observer 3; DfdResolve 1] [ErrObserver 4];
                     StateData_pending] [])).
  left. reflexivity.
Defined.

(** ** Registration, then settlement *)

Lemma upd_same (w : World) (a : addr) (sd : StateData) :
  heap w !! a = Some sd -> upd w a sd = w.
Proof.
  intros H. destruct w as [h t]. unfold upd. simpl in *. f_equal.
  now apply list_insert_id.
Qed.

Lemma done_each_pending (n : nat) (a : addr) (cbs : list Callback)
    (w : World) (sd : StateData) :
  heap w !! a = Some sd -> state sd = PENDING ->
  done_each (S n) (Some a) cbs w
  = Ret tt (upd w a (set_resolveList (resolveList sd ++ cbs) sd)).
Proof.
  revert w sd. induction cbs as [|fn rest IH]; intros w sd H Hs.
  - simpl. rewrite app_nil_r.
    replace (set_resolveList (resolveList sd) sd) with sd by now destruct sd.
    now rewrite upd_same.
  - simpl done_each. unfold Promise_done.
    rewrite (bind_Ret _ _ w
               (upd w a (set_resolveList (resolveList sd ++ [fn]) sd)) (Some a)).
    + rewrite (IH _ (set_resolveList (resolveList sd ++ [fn]) sd)
                 (heap_upd_same _ _ _ _ H) Hs).
      rewrite upd_upd. unfold set_resolveList. simpl.
      now rewrite <- app_assoc.
    + now rewrite (bind_Ret _ _ _ _ tt (done_only_pending n a fn w sd H Hs)).
Qed.

Lemma fail_each_pending (n : nat) (a : addr) (cbs : list ErrCallback)
    (w : World) (sd : StateData) :
  heap w !! a = Some sd -> state sd = PENDING ->
  fail_each (S n) (Some a) cbs w
  = Ret tt (upd w a (set_rejectList (rejectList sd ++ cbs) sd)).
Proof.
  revert w sd. induction cbs as [|fn rest IH]; intros w sd H Hs.
  - simpl. rewrite app_nil_r.
    replace (set_rejectList (rejectList sd) sd) with sd by now destruct sd.
    now rewrite upd_same.
  - simpl fail_each. unfold Promise_fail.
    rewrite (bind_Ret _ _ w
               (upd w a (set_rejectList (rejectList sd ++ [fn]) sd)) (Some a)).
    + rewrite (IH _ (set_rejectList (rejectList sd ++ [fn]) sd)
                 (heap_upd_same _ _ _ _ H) Hs).
      rewrite upd_upd. unfold set_rejectList. simpl.
      now rewrite <- app_assoc.
    + now rewrite (bind_Ret _ _ _ _ tt (fail_pending n a fn w sd H Hs)).
Qed.

(** X3.  Take consumer callbacks that only observe their argument and
    return normally.  On a pending cell with nothing queued, after such
    success callbacks were registered with [done] and such failure
    callbacks with [fail], [resolve(v)] calls every success callback
    once with [v], in registration order, and no failure callback;
    [reject(ep)] calls every failure callback once with [ep], in
    registration order, and no success callback.  Either way the cell
    ends settled with both lists empty, so the callbacks that were not
    called are dropped. *)
Theorem settlement_calls_registered_callbacks_in_order
    (w : World) (a : addr) (sd : StateData) (ids eids : list nat) :
  cell w a = Some sd -> state sd = PENDING ->
  resolveList sd = [] -> rejectList sd = [] ->
  forall n,
    (forall v,
        (done_each (1 + n) (Some a) (map Observer ids) ;;
         fail_each (1 + n) (Some a) (map ErrObserver eids) ;;
         Deferred_resolve (2 + n) a v) w
        = Ret tt
            (mkWorld (<[a := mkStateData v RESOLVED (err_ptr sd) [] []]> (heap w))
                     (trace w ++ map (fun id => Called id v) ids)))
    /\ (forall ep,
        (done_each (1 + n) (Some a) (map Observer ids) ;;
         fail_each (1 + n) (Some a) (map ErrObserver eids) ;;
         Deferred_reject (2 + n) a ep) w
        = Ret tt
            (mkWorld (<[a := mkStateData (value sd) REJECTED ep [] []]> (heap w))
                     (trace w ++ map (fun id => CalledErr id ep) eids))).
Proof.
  intros H Hs Hl Hr n.
  change (1 + n) with (S n). change (2 + n) with (S (S n)).
  set (sd0 := set_resolveList (resolveList sd ++ map Observer ids) sd).
  set (sd1 := mkStateData (value sd) PENDING (err_ptr sd)
                (map Observer ids) (map ErrObserver eids)).
  pose proof (done_each_pending n a (map Observer ids) w sd H Hs) as Hd.
  pose proof (fail_each_pending n a (map ErrObserver eids) _ sd0
                (heap_upd_same _ _ _ _ H) Hs) as Hf.
  rewrite upd_upd in Hf.
  assert (Hcell : set_rejectList (rejectList sd0 ++ map ErrObserver eids) sd0
                  = sd1).
  { unfold sd0, sd1, set_rejectList, set_resolveList. simpl.
    now rewrite Hl, Hr, Hs. }
  rewrite Hcell in Hf.
  pose proof (heap_upd_same w a sd sd1 H) as H1.
  split.
  - intros v.
    rewrite (bind_Ret _ _ _ _ _ Hd), (bind_Ret _ _ _ _ _ Hf).
    unfold Deferred_resolve.
    rewrite (resolve_notifies_observers n _ a sd1 v ids H1 eq_refl).
    unfold upd. simpl. now rewrite list_insert_insert_eq.
  - intros ep.
    rewrite (bind_Ret _ _ _ _ _ Hd), (bind_Ret _ _ _ _ _ Hf).
    unfold Deferred_reject.
    rewrite (reject_notifies_observers n _ a sd1 ep eids H1 eq_refl).
    unfold upd. simpl. now rewrite list_insert_insert_eq.
Qed.

Lemma settlement_calls_registered_callbacks_in_order_witness :
  let w := mkWorld [StateData_pending] [] in
  (done_each 1 (Some 0) (map Observer [1; 2; 3]) ;;
   fail_each 1 (Some 0) (map ErrObserver [7; 8]) ;;
   Deferred_resolve 2 0 (VInt 4)) w
  = Ret tt (mkWorld [StateData_of_value (VInt 4)]
                    [Called 1 (VInt 4); Called 2 (VInt 4); Called 3 (VInt 4)]).
Proof.
  intros w.
  exact (proj1 (settlement_calls_registered_callbacks_in_order w 0
                  StateData_pending [1; 2; 3] [7; 8]
                  eq_refl eq_refl eq_refl eq_refl 0) (VInt 4)).
Defined.

(** ** Subscribing with both callbacks to a settled promise *)

(** X4.  On a resolved cell, [done(onSuccess, onFail)] is exactly one
    call [onSuccess(value)], made before it returns, whatever the two
    callbacks are: [onFail] is neither called nor queued.  On a rejected
    cell, [fail(onFail)] is exactly one call [onFail(error)]; and
    [done(onSuccess, onFail)] with [onFail] a consumer callback that
    only observes calls [onFail] once and never [onSuccess], whatever
    [onSuccess] is, and leaves the heap unchanged. *)
Theorem done_on_settled_calls_only_the_matching_callback
    (w : World) (a : addr) (sd : StateData) :
  cell w a = Some sd ->
  (state sd = RESOLVED ->
   forall n (onSuccess : Callback) (onFail : ErrCallback),
     Promise_done (2 + n) (Some a) (Some onSuccess) (Some onFail) w
     = (exec (1 + n) (Invoke onSuccess (value sd)) ;; ret (Some a)) w)
  /\ (state sd = REJECTED ->
      forall n (onFail : ErrCallback),
        Promise_fail (1 + n) (Some a) (Some onFail) w
        = (exec n (InvokeErr onFail (err_ptr sd)) ;; ret (Some a)) w)
  /\ (state sd = REJECTED ->
      forall n (onSuccess : Callback) (j : nat),
        Promise_done (3 + n) (Some a) (Some onSuccess) (Some (ErrObserver j)) w
        = Ret (Some a)
              (mkWorld (heap w) (trace w ++ [CalledErr j (err_ptr sd)]))).
Proof.
  intros Ha. split; [|split]; intros Hs n.
  - intros onSuccess onFail. unfold Promise_done, bind.
    change (2 + n) with (S (S n)).
    now rewrite (done_both_resolved n a onSuccess onFail w sd Ha Hs).
  - intros onFail. unfold Promise_fail, bind. change (1 + n) with (S n).
    now rewrite (fail_rejected n a onFail w sd Ha Hs).
  - intros onSuccess j.
    apply (Promise_done_rejected (S n) a _ _ w _ sd Ha Hs);
      [reflexivity | exact Ha].
Qed.

Lemma done_on_settled_calls_only_the_matching_callback_witness :
  let w := mkWorld [StateData_of_value (VInt 4)] [] in
  let r := mkWorld [StateData_of_error (Some (runtime_error "no"))] [] in
  Promise_done 2 (Some 0) (Some (Observer 1)) (Some (ErrObserver 2)) w
  = Ret (Some 0) (mkWorld (heap w) [Called 1 (VInt 4)])
  /\ Promise_done 3 (Some 0) (Some (Observer 1)) (Some (ErrObserver 2)) r
     = Ret (Some 0)
           (mkWorld (heap r) [CalledErr 2 (Some (runtime_error "no"))]).
Proof.
  intros w r. split.
  - exact (proj1 (done_on_settled_calls_only_the_matching_callback w 0
                    (StateData_of_value (VInt 4)) eq_refl)
                 eq_refl 0 (Observer 1) (ErrObserver 2)).
  - exact (proj2 (proj2 (done_on_settled_calls_only_the_matching_callback r 0
                           (StateData_of_error (Some (runtime_error "no")))
                           eq_refl))
                 eq_refl 0 (Observer 1) 2).
Defined.

(** ** Promises that are born rejected *)

Lemma Promise_rejected_alloc (n : nat) (ep : exception_ptr) (w : World) :
  Promise_rejected (S n) ep w
  = Ret (Some (length (heap w))) (alloc w (StateData_of_error ep)).
Proof.
  unfold Promise_rejected, Promise_rejected_body.
  assert (E : make_shared StateData_pending w
              = Ret (length (heap w)) (alloc w StateData_pending))
    by reflexivity.
  rewrite (bind_Ret _ _ _ _ _ E).
  now rewrite (bind_Ret _ _ _ _ _ (reject_fresh n w ep)).
Qed.

(** X5.  [Promise::rejected(ep)], which default-constructs a [Deferred]
    and rejects it, ends in the same world and returns the same promise
    as taking the promise of [Deferred(ep)]: one new cell, rejected with
    [ep], nothing queued and nothing called. *)
Theorem rejected_is_the_promise_of_a_pre_rejected_deferred
    (n : nat) (ep : exception_ptr) (w : World) :
  Promise_rejected (S n) ep w
  = (dfd <- Deferred_of_error ep ;; ret (Deferred_promise dfd)) w
  /\ Promise_rejected (S n) ep w
     = Ret (Some (length (heap w)))
           (mkWorld (heap w ++ [mkStateData VEmpty REJECTED ep [] []])
                    (trace w)).
Proof. split; apply Promise_rejected_alloc. Qed.

(** X6.  Both overloads of [thenPipe] on an unbound promise return,
    instead of throwing as [done] does: the result is a promise on a new
    cell rejected with [std::runtime_error("Promise invalid")], and no
    handler is called. *)
Theorem thenPipe_on_unbound_returns_rejected_promise
    (p : Promise) (n : nat) (w : World)
    (onSuccess : val -> outcome PromiseExpr)
    (onFail : exception_ptr -> outcome PromiseExpr) :
  Promise_isValid p = false ->
  let w' := mkWorld (heap w ++ [mkStateData VEmpty REJECTED
                                  (Some (runtime_error "Promise invalid")) [] []])
                    (trace w) in
  Promise_thenPipe (S n) p onSuccess w = Ret (Some (length (heap w))) w'
  /\ Promise_thenPipe2 (S n) p onSuccess onFail w
     = Ret (Some (length (heap w))) w'.
Proof.
  intros Hp w'. destruct p as [a|]; [discriminate|].
  split; apply Promise_rejected_alloc.
Qed.

Lemma thenPipe_on_unbound_returns_rejected_promise_witness :
  Promise_thenPipe 1 None (fun _ => throws (thrown_value VEmpty)) empty_world
  = Ret (Some 0)
        (mkWorld [StateData_of_error (Some (runtime_error "Promise invalid"))]
                 []).
Proof.
  exact (proj1 (thenPipe_on_unbound_returns_rejected_promise None 0 empty_world
                  (fun _ => throws (thrown_value VEmpty))
                  (fun _ => throws (thrown_value VEmpty)) eq_refl)).
Defined.

(** ** [Deferred::invalidate] *)



(** ** [Deferred::resolve(Promise<T>)] *)

(** X8.  [dfd.resolve(v)] with a promise [v] makes [dfd] follow [v].
    If [v] is resolved, it is exactly [dfd.resolve(value of v)].  If [v]
    is rejected, it does what [dfd.reject(error of v)] does, provided
    that call returns and leaves [v] rejected.  If [v] is pending,
    nothing is called and the two forwarding closures are appended to
    the lists of the cell of [v].  If [v] is unbound, the call throws
    "Promise invalid" and changes nothing. *)
Theorem resolve_with_promise_follows_it (w : World) (t : addr) :
  (forall c sd n,
      cell w c = Some sd -> state sd = RESOLVED ->
      Deferred_resolve_promise (2 + n) t (Some c) w
      = Deferred_resolve n t (value sd) w)
  /\ (forall c sd n w',
      cell w c = Some sd -> state sd = REJECTED ->
      Deferred_reject n t (err_ptr sd) w = Ret tt w' ->
      state_of w' c = Some REJECTED ->
      Deferred_resolve_promise (3 + n) t (Some c) w = Ret tt w')
  /\ (forall c sd n,
      cell w c = Some sd -> state sd = PENDING ->
      Deferred_resolve_promise (2 + n) t (Some c) w
      = Ret tt
          (mkWorld (<[c := mkStateData (value sd) PENDING (err_ptr sd)
                            (resolveList sd ++ [DfdResolve t])
                            (rejectList sd ++ [DfdReject t])]> (heap w))
                   (trace w)))
  /\ (forall n, Deferred_resolve_promise (1 + n) t None w
                = Raise Promise_invalid w).
Proof.
  unfold Deferred_resolve_promise, Deferred_resolve, Deferred_reject.
  split; [|split; [|split]].
  - intros c sd n Hc Hs. change (2 + n) with (S (S n)).
    now rewrite (done_both_resolved n c _ _ w sd Hc Hs).
  - intros c sd n w' Hc Hs Hrej Hst. change (3 + n) with (S (S (S n))).
    rewrite exec_S. unfold step, Promise_done_body, bind.
    rewrite (fail_rejected (S n) c _ w sd Hc Hs).
    rewrite exec_S. unfold step, invoke_err. rewrite Hrej.
    unfold state_of, cell in Hst. unfold deref.
    destruct (heap w' !! c) as [sd'|]; [|discriminate].
    simpl in Hst. inversion Hst as [Hst']. now rewrite Hst'.
  - intros c sd n Hc Hs. change (2 + n) with (S (S n)).
    apply (done_both_pending n c _ _ w sd Hc Hs).
  - reflexivity.
Qed.

Lemma resolve_with_promise_follows_it_witness :
  let w := mkWorld [mkStateData VEmpty PENDING None [Observer 1] [ErrObserver 2];
                    StateData_of_value (VInt 4);
                    StateData_of_error (Some (runtime_error "no"))] [] in
  Deferred_resolve_promise 4 0 (Some 1) w = Deferred_resolve 2 0 (VInt 4) w
  /\ Deferred_resolve_promise 5 0 (Some 2) w
     = Ret tt (mkWorld [StateData_of_error (Some (runtime_error "no"));
                        StateData_of_value (VInt 4);
                        StateData_of_error (Some (runtime_error "no"))]
                       [CalledErr 2 (Some (runtime_error "no"))])
  /\ Deferred_resolve_promise 2 0 (Some 0) w
     = Ret tt (mkWorld [mkStateData VEmpty PENDING None
                          [Observer 1; DfdResolve 0]
                          [ErrObserver 2; DfdReject 0];
                        StateData_of_value (VInt 4);
                        StateData_of_error (Some (runtime_error "no"))] []).
Proof.
  intros w.
  destruct (resolve_with_promise_follows_it w 0) as (H1 & H2 & H3 & _).
  split; [|split].
  - exact (H1 1 (StateData_of_value (VInt 4)) 2 eq_refl eq_refl).
  - exact (H2 2 (StateData_of_error (Some (runtime_error "no"))) 2 _
              eq_refl eq_refl eq_refl eq_refl).
  - exact (H3 0 (mkStateData VEmpty PENDING None [Observer 1] [ErrObserver 2])
              0 eq_refl eq_refl).
Defined.

(** A cell whose resolve list holds a closure that resolves the same
    cell: [resolve] calls it, it calls [resolve], and so on. *)
Lemma resolve_through_own_closure_runs_out (a : addr) (v : val)
    (ids : list nat) (rest : list Callback) (fuel : nat) :
  forall (w : World) (sd : StateData),
    heap w !! a = Some sd ->
    resolveList sd = map Observer ids ++ DfdResolve a :: rest ->
    exec fuel (CallResolve a v) w = Stop OutOfFuel.
Proof.
  induction fuel as [fuel IH] using lt_wf_ind. intros w sd H Hl.
  destruct fuel as [|n]; [reflexivity|].
  rewrite exec_S. unfold step.
  rewrite (StateData_resolve_unfold _ _ _ _ _ H), Hl.
  set (l := map Observer ids ++ DfdResolve a :: rest).
  set (sd1 := mkStateData v RESOLVED (err_ptr sd) l []).
  pose proof (heap_upd_same w a sd sd1 H) as H1.
  unfold bind.
  destruct n as [|m].
  - unfold l. destruct ids; reflexivity.
  - unfold l at 2. rewrite for_each_observers.
    + rewrite for_each_cons, exec_S. unfold step, invoke.
      erewrite (IH m); [reflexivity | lia | exact H1 | reflexivity].
    + intros t. unfold resolveList_size_is. simpl heap. simpl in H1.
      rewrite H1. simpl. apply Nat.eqb_refl.
Qed.

(** While a settled cell is being dispatched, its resolve list is the
    list being iterated or has been cleared. *)
Lemma queue_kept_or_cleared_exec (a : addr) (l : list Callback)
    (fuel : nat) (c : call) :
  keeps (cell_has a (fun sd => state sd <> PENDING
                               /\ (resolveList sd = l \/ resolveList sd = [])))
        (exec fuel c).
Proof. apply holds_exec; simpl; intros; intuition congruence. Qed.

(** The same with arbitrary callbacks queued before the closure: the
    call may end in an exception of one of them, but it never returns. *)
Lemma resolve_through_own_closure_never_returns (a : addr) (v : val)
    (fuel : nat) :
  forall (w : World) (sd : StateData) (pre rest : list Callback),
    heap w !! a = Some sd ->
    resolveList sd = pre ++ DfdResolve a :: rest ->
    forall u w', exec fuel (CallResolve a v) w <> Ret u w'.
Proof.
  induction fuel as [fuel IH] using lt_wf_ind.
  intros w sd pre rest H Hl u w'.
  destruct fuel as [|n]; [discriminate|].
  rewrite exec_S. unfold step.
  rewrite (StateData_resolve_unfold _ _ _ _ _ H), Hl.
  set (l := pre ++ DfdResolve a :: rest).
  set (sd1 := mkStateData v RESOLVED (err_ptr sd) l []).
  pose proof (heap_upd_same w a sd sd1 H) as H1.
  assert (Hlen : length l <> 0)
    by (unfold l; rewrite length_app; simpl; lia).
  assert (Hloop :
    forall pre' W sdW,
      heap W !! a = Some sdW -> state sdW <> PENDING -> resolveList sdW = l ->
      forall x W',
        for_each (fun fn => exec n (Invoke fn v))
                 (resolveList_size_is a (length l))
                 (pre' ++ DfdResolve a :: rest) W <> Ret x W').
  { induction pre' as [|fn pre' IHp]; intros W sdW HW HsW HlW x W'.
    - simpl app. rewrite for_each_cons.
      destruct n as [|m]; [discriminate|].
      rewrite exec_S. unfold step, invoke.
      destruct (exec m (CallResolve a v) W) as [y W2|e W2|st] eqn:E;
        [|discriminate|discriminate].
      exfalso.
      exact (IH m ltac:(lia) W sdW pre rest HW HlW y W2 E).
    - simpl app. rewrite for_each_cons.
      pose proof (queue_kept_or_cleared_exec a l n (Invoke fn v) W) as Hk.
      destruct (exec n (Invoke fn v) W) as [y W2|e W2|st] eqn:E;
        [|discriminate|discriminate].
      unfold resolveList_size_is.
      destruct Hk as (sd2 & H2 & Hs2 & Hq).
      { exists sdW. split; [exact HW|]. split; [exact HsW | now left]. }
      rewrite H2.
      destruct (length (resolveList sd2) =? length l) eqn:Elen;
        [|discriminate].
      apply Nat.eqb_eq in Elen.
      destruct Hq as [Hq|Hq]; [|rewrite Hq in Elen; simpl in Elen; lia].
      exact (IHp W2 sd2 H2 Hs2 Hq x W'). }
  unfold bind.
  destruct (for_each (fun fn => exec n (Invoke fn v))
                     (resolveList_size_is a (length l)) l (upd w a sd1))
    as [x W2|e W2|st] eqn:E; [|discriminate|discriminate].
  exfalso.
  exact (Hloop pre (upd w a sd1) sd1 H1 ltac:(discriminate) eq_refl x W2 E).
Qed.

(** X9.  Resolving a pending [Deferred] with its own promise queues, on
    its own cell, a closure that resolves that cell.  A later
    [resolve(v)] then never returns normally, whatever callbacks were
    queued before.  When those are consumer callbacks that only observe,
    it recurses without end: whatever the fuel, the dispatch is still
    recursing when the fuel runs out. *)
Theorem resolving_with_own_promise_makes_resolve_diverge
    (w : World) (a : addr) (sd : StateData) :
  cell w a = Some sd -> state sd = PENDING ->
  forall n, exists w1,
    Deferred_resolve_promise (2 + n) a (Deferred_promise a) w = Ret tt w1
    /\ state_of w1 a = Some PENDING
    /\ (forall fuel v u w2, Deferred_resolve fuel a v w1 <> Ret u w2)
    /\ (forall ids,
          resolveList sd = map Observer ids ->
          forall fuel v, Deferred_resolve fuel a v w1 = Stop OutOfFuel).
Proof.
  intros H Hs n. eexists. split; [|split; [|split]].
  - unfold Deferred_resolve_promise, Deferred_promise.
    change (2 + n) with (S (S n)).
    apply (done_both_pending n a _ _ w sd H Hs).
  - unfold state_of, cell. erewrite heap_upd_same by exact H. now simpl.
  - intros fuel v u w2. unfold Deferred_resolve.
    eapply (resolve_through_own_closure_never_returns a v fuel _ _
              (resolveList sd) []).
    + eapply heap_upd_same. exact H.
    + reflexivity.
  - intros ids Hl fuel v. unfold Deferred_resolve.
    eapply resolve_through_own_closure_runs_out.
    + eapply heap_upd_same. exact H.
    + simpl. rewrite Hl. reflexivity.
Qed.

Lemma resolving_with_own_promise_makes_resolve_diverge_witness :
  exists w1,
    Deferred_resolve_promise 2 0 (Some 0) (mkWorld [StateData_pending] [])
    = Ret tt w1
    /\ state_of w1 0 = Some PENDING
    /\ forall fuel v, Deferred_resolve fuel 0 v w1 = Stop OutOfFuel.
Proof.
  destruct (resolving_with_own_promise_makes_resolve_diverge
              (mkWorld [StateData_pending] []) 0 StateData_pending
              eq_refl eq_refl 0) as (w1 & H1 & H2 & _ & H4).
  exists w1. split; [exact H1|]. split; [exact H2|].
  exact (H4 [] eq_refl).
Defined.

(** ** [thenPipe] on a promise that is rejected, or still pending *)

(** The handler's promise is [Promise<Uout>(u)]: it is created resolved,
    so [res.done] forwards [u] to the derived cell at once. *)
Lemma pipe_handler_of_value (n : nat) (w : World) (d : addr)
    (sdd : StateData) (u : val) :
  heap w !! d = Some sdd -> resolveList sdd = [] ->
  pipe_handler (exec (3 + n)) d (returns (promise_of_value u)) w
  = Ret tt (upd (alloc w (StateData_of_value u)) d
                (mkStateData u RESOLVED (err_ptr sdd) [] [])).
Proof.
  intros Hd Hl. apply pipe_handler_returns.
  assert (Hmk : make_promise (exec (3 + n)) (promise_of_value u) w
                = Ret (Some (length (heap w))) (alloc w (StateData_of_value u)))
    by reflexivity.
  rewrite (bind_Ret _ _ _ _ _ Hmk).
  change (3 + n) with (S (S (S n))).
  rewrite (done_both_resolved (S n) _ _ _ _ _
             (heap_alloc_new w (StateData_of_value u)) eq_refl).
  rewrite exec_S. unfold step, invoke. rewrite exec_S. unfold step.
  apply StateData_resolve_drained; [now apply heap_alloc_old | exact Hl].
Qed.

Lemma thenPipe_rejected_forwards (n : nat) (w : World) (a : addr)
    (sd : StateData) (h : val -> outcome PromiseExpr) :
  heap w !! a = Some sd -> state sd = REJECTED ->
  Promise_thenPipe (4 + n) (Some a) h w
  = Ret (Some (length (heap w))) (alloc w (StateData_of_error (err_ptr sd))).
Proof.
  intros H Hs. unfold Promise_thenPipe.
  rewrite (bind_Ret _ _ _ _ _ (Deferred_new_alloc w)).
  erewrite bind_Ret; [reflexivity|].
  apply (Promise_done_rejected (S (S n)) a _ _ _ _ sd
           (heap_alloc_old w _ _ _ H) Hs).
  - rewrite exec_S. unfold step, invoke_err. apply reject_fresh.
  - now apply heap_alloc_old.
Qed.

Lemma thenPipe2_rejected_recovers (n : nat) (w : World) (a : addr)
    (sd : StateData) (h : val -> outcome PromiseExpr)
    (hf : exception_ptr -> outcome PromiseExpr) (u : val) :
  heap w !! a = Some sd -> state sd = REJECTED ->
  hf (err_ptr sd) = returns (promise_of_value u) ->
  Promise_thenPipe2 (6 + n) (Some a) h hf w
  = Ret (Some (length (heap w)))
        (mkWorld (heap w ++ [StateData_of_value u; StateData_of_value u])
                 (trace w)).
Proof.
  intros H Hs Hf. unfold Promise_thenPipe2.
  rewrite (bind_Ret _ _ _ _ _ (Deferred_new_alloc w)).
  erewrite bind_Ret; [reflexivity|].
  change (6 + n) with (S (S (S (3 + n)))).
  apply (Promise_done_rejected (S (3 + n)) a _ _ _ _ sd
           (heap_alloc_old w _ _ _ H) Hs).
  - rewrite exec_S. unfold step, invoke_err. rewrite Hf.
    rewrite (pipe_handler_of_value n _ _ StateData_pending u
               (heap_alloc_new w StateData_pending) eq_refl).
    rewrite upd_alloc_alloc. unfold alloc. simpl. now rewrite <- app_assoc.
  - simpl. now apply lookup_app_l_Some.
Qed.

(** X10.  On a rejected promise the one-handler [thenPipe] never calls
    its handler: the derived promise is rejected with the same error.
    The two-handler overload calls the failure handler with that error
    instead, and a promise [Promise<Uout>(u)] returned by it resolves the
    derived promise with [u]: the failure is recovered. *)
Theorem thenPipe_on_rejected_forwards_or_recovers
    (w : World) (a : addr) (sd : StateData) :
  cell w a = Some sd -> state sd = REJECTED ->
  forall n (onSuccess : val -> outcome PromiseExpr),
    Promise_thenPipe (4 + n) (Some a) onSuccess w
    = Ret (Some (length (heap w)))
          (mkWorld (heap w ++ [mkStateData VEmpty REJECTED (err_ptr sd) [] []])
                   (trace w))
    /\ forall (onFail : exception_ptr -> outcome PromiseExpr) (u : val),
         onFail (err_ptr sd) = returns (promise_of_value u) ->
         Promise_thenPipe2 (6 + n) (Some a) onSuccess onFail w
         = Ret (Some (length (heap w)))
               (mkWorld (heap w ++ [StateData_of_value u; StateData_of_value u])
                        (trace w)).
Proof.
  intros H Hs n onSuccess. split.
  - exact (thenPipe_rejected_forwards n w a sd onSuccess H Hs).
  - intros onFail u Hf.
    exact (thenPipe2_rejected_recovers n w a sd onSuccess onFail u H Hs Hf).
Qed.

Lemma thenPipe_on_rejected_forwards_or_recovers_witness :
  let w := mkWorld [StateData_of_error (Some (runtime_error "no"))] [] in
  Promise_thenPipe 4 (Some 0) (fun _ => throws (thrown_value VEmpty)) w
  = Ret (Some 1)
        (mkWorld [StateData_of_error (Some (runtime_error "no"));
                  StateData_of_error (Some (runtime_error "no"))] [])
  /\ Promise_thenPipe2 6 (Some 0) (fun _ => throws (thrown_value VEmpty))
       (fun _ => returns (promise_of_value (VInt 0))) w
     = Ret (Some 1)
           (mkWorld [StateData_of_error (Some (runtime_error "no"));
                     StateData_of_value (VInt 0);
                     StateData_of_value (VInt 0)] []).
Proof.
  intros w.
  destruct (thenPipe_on_rejected_forwards_or_recovers w 0
              (StateData_of_error (Some (runtime_error "no")))
              eq_refl eq_refl 0 (fun _ => throws (thrown_value VEmpty)))
    as (H1 & H2).
  split; [exact H1|].
  exact (H2 (fun _ => returns (promise_of_value (VInt 0))) (VInt 0) eq_refl).
Defined.

(** X11.  On a resolved promise the two overloads of [thenPipe] behave
    alike, whatever the failure handler is and however the success
    handler ends: the failure handler is never called. *)
Theorem thenPipe_overloads_agree_on_resolved
    (w : World) (a : addr) (sd : StateData) :
  cell w a = Some sd -> state sd = RESOLVED ->
  forall fuel (onSuccess : val -> outcome PromiseExpr)
         (onFail : exception_ptr -> outcome PromiseExpr),
    Promise_thenPipe2 fuel (Some a) onSuccess onFail w
    = Promise_thenPipe fuel (Some a) onSuccess w.
Proof.
  intros H Hs fuel onSuccess onFail.
  unfold Promise_thenPipe2, Promise_thenPipe.
  rewrite !(bind_Ret _ _ _ _ _ (Deferred_new_alloc w)).
  unfold Promise_done, bind.
  destruct fuel as [|[|n]]; [reflexivity | reflexivity |].
  now rewrite !(done_both_resolved n a _ _ _ sd (heap_alloc_old w _ _ _ H) Hs).
Qed.

Lemma thenPipe_overloads_agree_on_resolved_witness :
  let w := mkWorld [StateData_of_value (VInt 3)] [] in
  Promise_thenPipe2 5 (Some 0)
    (fun v => returns (promise_of_value v))
    (fun _ => throws (thrown_value VEmpty)) w
  = Promise_thenPipe 5 (Some 0) (fun v => returns (promise_of_value v)) w.
Proof.
  intros w.
  exact (thenPipe_overloads_agree_on_resolved w 0
           (StateData_of_value (VInt 3)) eq_refl eq_refl 5
           (fun v => returns (promise_of_value v))
           (fun _ => throws (thrown_value VEmpty))).
Defined.





(** ** An exception that leaves a callback during [resolve] *)




(** ** Abandoning a cell nobody asked to hear failures from *)

(** X14.  [~StateData] rejects only a cell that is pending and has a
    failure callback registered.  Take a cell whose queued callbacks are
    consumer callbacks that only observe (they capture no handle).  When its last owners are
    destroyed and the cell is settled, or is pending with success
    callbacks only, nothing is called and nothing changes: consumers
    that subscribed with [done(onSuccess)] alone are never told. *)
Theorem abandoning_without_failure_callbacks_calls_nothing
    (w : World) (a : addr) (sd : StateData) (ids eids : list nat) :
  cell w a = Some sd ->
  resolveList sd = map Observer ids ->
  rejectList sd = map ErrObserver eids ->
  state sd <> PENDING \/ eids = [] ->
  forall fuel k,
    destroy_all_deferreds fuel a (mkOwners (S k) 0) w = Ret (mkOwners 0 0) w
    /\ Promise_destroy fuel a (mkOwners 0 1) w = Ret (mkOwners 0 0) w.
Proof.
  intros H Hrl Hl Hor fuel k.
  assert (Hd : StateData_destroy fuel a w = Ret tt w).
  { unfold StateData_destroy.
    rewrite (bind_Ret _ _ _ _ _ (deref_Some _ _ _ H)), Hrl, Hl.
    rewrite observers_capture_nothing, err_observers_capture_nothing.
    cbn [orb].
    destruct Hor as [Hs| ->].
    - destruct (state sd); [congruence | reflexivity | reflexivity].
    - simpl. now rewrite andb_false_r. }
  split.
  - unfold destroy_all_deferreds. simpl deferreds.
    rewrite destroy_deferreds_all_but_last.
    unfold shared_ptr_release, use_count. cbn [promises deferreds Nat.add Nat.eqb].
    unfold bind. now rewrite Hd.
  - unfold Promise_destroy, shared_ptr_release, use_count.
    cbn [promises deferreds Nat.add Nat.eqb]. unfold bind. now rewrite Hd.
Qed.

Lemma abandoning_without_failure_callbacks_calls_nothing_witness :
  let w := mkWorld [mkStateData VEmpty PENDING None [Observer 1; Observer 2] []]
                   [] in
  destroy_all_deferreds 3 0 (mkOwners 2 0) w = Ret (mkOwners 0 0) w.
Proof.
  intros w.
  exact (proj1 (abandoning_without_failure_callbacks_calls_nothing w 0
                  (mkStateData VEmpty PENDING None [Observer 1; Observer 2] [])
                  [1; 2] [] eq_refl eq_refl eq_refl (or_intror eq_refl) 3 1)).
Defined.

(** ** Chaining *)

(** X15.  Two [thenPipe] calls in a row on a resolved promise, each
    handler returning a promise made from a value, end with a promise
    resolved with the second handler's value of the first handler's
    value; the original cell and the intermediate cells keep their
    outcomes. *)
Theorem thenPipe_chain_composes_handlers
    (w : World) (a : addr) (sd : StateData)
    (f g : val -> outcome PromiseExpr) (u1 u2 : val) :
  cell w a = Some sd -> state sd = RESOLVED ->
  f (value sd) = returns (promise_of_value u1) ->
  g u1 = returns (promise_of_value u2) ->
  forall n,
    (p1 <- Promise_thenPipe (5 + n) (Some a) f ;;
     Promise_thenPipe (5 + n) p1 g) w
    = Ret (Some (2 + length (heap w)))
          (mkWorld (heap w ++ [StateData_of_value u1; StateData_of_value u1;
                               StateData_of_value u2; StateData_of_value u2])
                   (trace w)).
Proof.
  intros H Hs Hf Hg n.
  rewrite (bind_Ret _ _ _ _ _ (thenPipe_of_value n w a sd f u1 H Hs Hf)).
  set (w1 := mkWorld (heap w ++ [StateData_of_value u1; StateData_of_value u1])
                     (trace w)).
  assert (H1 : heap w1 !! length (heap w) = Some (StateData_of_value u1)).
  { unfold w1. simpl. now apply list_lookup_middle. }
  etransitivity;
    [exact (thenPipe_of_value n w1 _ _ g u2 H1 eq_refl Hg)|].
  unfold w1. simpl. rewrite length_app. simpl.
  rewrite <- app_assoc. simpl.
  now replace (length (heap w) + 2) with (S (S (length (heap w)))) by lia.
Qed.

Lemma thenPipe_chain_composes_handlers_witness :
  (p1 <- Promise_thenPipe 5 (Some 0)
           (on_int (fun x => returns (promise_of_value (VInt (x * 2))))) ;;
   Promise_thenPipe 5 p1
     (on_int (fun x => returns (promise_of_value (VStr (pretty x))))))
    (mkWorld [StateData_of_value (VInt 5)] [])
  = Ret (Some 3)
        (mkWorld [StateData_of_value (VInt 5);
                  StateData_of_value (VInt 10); StateData_of_value (VInt 10);
                  StateData_of_value (VStr "10"); StateData_of_value (VStr "10")]
                 []).
Proof.
  exact (thenPipe_chain_composes_handlers
           (mkWorld [StateData_of_value (VInt 5)] []) 0
           (StateData_of_value (VInt 5))
           (on_int (fun x => returns (promise_of_value (VInt (x * 2)))))
           (on_int (fun x => returns (promise_of_value (VStr (pretty x)))))
           (VInt 10) (VStr "10") eq_refl eq_refl eq_refl eq_refl 0).
Defined.
